(** * TwoGroupWordCloudModule: the comparative scorer of [CloudModule.py]

    A shallow embedding of [preprocess_text], of the body of
    [generateTwoGroupWordCloud] up to the call of the external word-cloud
    renderer, and of the colour closure built by
    [__create_choose_color_func__].

    Conventions of the embedding.
    - A Python [str] is a [string] whose characters are the code points
      0..255 (ASCII and Latin-1); the character classes below are the ones
      Python 3 uses on that range ([\w] without flags, [str.isdigit],
      [str.lower]).
    - A Python [list] is a [list], a [dict] / [Counter] / [defaultdict] is a
      [gmap] keyed by strings, a [set] is a [gset].
    - A raised exception is the [Raise] branch of [result]; the statements
      of a function body are chained with the bind of that error monad.
    - The numbers of the program (thresholds, frequencies, scores) are kept
      behind the interface [Num].  The instance of the program is [float]
      (IEEE binary64, Python's [float]): the properties of the frequencies
      and of the scores are proved for it, from the specification of
      rounding in the Standard Library.  The instance [Q] gives the exact
      value of every quotient; it is used to read the examples.
*)

From Stdlib Require Import Ascii String ZArith Lia QArith Floats Uint63.
From stdpp Require Import gmap strings list fin_maps fin_sets.

Local Open Scope string_scope.

(** ** Characters and the string methods used by [preprocess_text] *)

Module Text.

Definition code (c : ascii) : N := N_of_ascii c.

Definition in_range (lo hi : N) (c : ascii) : bool :=
  ((lo <=? code c) && (code c <=? hi))%N.

Definition is_code (n : N) (c : ascii) : bool := (code c =? n)%N.

(** [str.isalpha] on one character: the letters of ASCII and Latin-1
    (U+00AA, U+00B5, U+00BA, U+00C0..U+00FF without the two operators
    U+00D7 and U+00F7). *)
Definition char_isalpha (c : ascii) : bool :=
  in_range 65 90 c || in_range 97 122 c
  || is_code 170 c || is_code 181 c || is_code 186 c
  || in_range 192 214 c || in_range 216 246 c || in_range 248 255 c.

(** [str.isdigit] on one character: 0..9 and the superscripts U+00B2,
    U+00B3, U+00B9. *)
Definition char_isdigit (c : ascii) : bool :=
  in_range 48 57 c || is_code 178 c || is_code 179 c || is_code 185 c.

(** [str.isnumeric] on one character: the digits and the vulgar fractions
    U+00BC..U+00BE. *)
Definition char_isnumeric (c : ascii) : bool :=
  char_isdigit c || in_range 188 190 c.

(** The class [\w] of [re]: alphanumeric or underscore. *)
Definition is_word (c : ascii) : bool :=
  char_isalpha c || char_isnumeric c || is_code 95 c.

(** The class [[\w']]. *)
Definition is_word_or_quote (c : ascii) : bool :=
  is_word c || is_code 39 c.

(** [str.lower] on one character. *)
Definition char_lower (c : ascii) : ascii :=
  if in_range 65 90 c || (in_range 192 222 c && negb (is_code 215 c))
  then ascii_of_N (code c + 32)
  else c.

Fixpoint lower (s : string) : string :=
  match s with
  | EmptyString => EmptyString
  | String c s' => String (char_lower c) (lower s')
  end.

Fixpoint all_chars (p : ascii -> bool) (s : string) : bool :=
  match s with
  | EmptyString => true
  | String c s' => p c && all_chars p s'
  end.

(** [word.isdigit()]: at least one character, and every character a digit. *)
Definition isdigit (s : string) : bool :=
  match s with
  | EmptyString => false
  | String _ _ => all_chars char_isdigit s
  end.

(** [s.endswith(suffix)]: some suffix of [s] is [suffix]. *)
Fixpoint endswith (s suffix : string) : bool :=
  (s =? suffix)%string ||
  match s with
  | EmptyString => false
  | String _ s' => endswith s' suffix
  end.

(** [word[:-2]]. *)
Definition drop_last2 (word : string) : string :=
  substring 0 (String.length word - 2) word.

(** [' '.join(words)]. *)
Definition join_space (words : list string) : string :=
  String.concat " " words.

(** [text.split(' ')]: the pieces between single spaces; never empty. *)
Fixpoint split_space (s : string) : list string :=
  match s with
  | EmptyString => [EmptyString]
  | String c s' =>
      if is_code 32 c then EmptyString :: split_space s'
      else match split_space s' with
           | t :: ts => String c t :: ts
           | [] => [String c EmptyString]
           end
  end.

(** *** [re.findall(r"\w[\w']*", text)] *)

(** The greedy star [[\w']*] at the head of [s]: nothing follows it in the
    pattern, so it takes the whole run and never gives a character back. *)
Fixpoint star_word_or_quote (s : string) : string :=
  match s with
  | EmptyString => EmptyString
  | String c s' =>
      if is_word_or_quote c then String c (star_word_or_quote s')
      else EmptyString
  end.

(** The pattern anchored at the head of [s]. *)
Definition match_here (s : string) : option string :=
  match s with
  | EmptyString => None
  | String c s' =>
      if is_word c then Some (String c (star_word_or_quote s')) else None
  end.

(** The scan of [findall]: the pattern is tried at each position from left
    to right; after a match the scan resumes behind it ([skip] counts the
    characters of the current match still to be passed over). *)
Fixpoint findall_from (skip : nat) (s : string) : list string :=
  match s with
  | EmptyString => []
  | String _ s' =>
      match skip with
      | S k => findall_from k s'
      | O =>
          match match_here s with
          | Some m => m :: findall_from (String.length m - 1) s'
          | None => findall_from 0 s'
          end
      end
  end.

Definition findall (text : string) : list string := findall_from 0 text.

(** *** [preprocess_text] *)

Definition strip_possessive (word : string) : string :=
  if endswith (lower word) "'s" then drop_last2 word else word.

Definition preprocess_text (text : string) : string :=
  let words := findall text in
  (* remove 's *)
  let words := map strip_possessive words in
  (* remove numbers *)
  let words := List.filter (fun word => negb (isdigit word)) words in
  lower (join_space words).

End Text.

(** ** Exceptions and the error monad *)

(** One constructor for each place where the module raises, and for the
    two built-in errors its expressions can raise.  The texts of the
    messages are not kept. *)
Inductive exn : Type :=
| ThresholdsNotSorted      (* Exception("Thresholds list is not sorted") *)
| LastThresholdNotOne      (* Exception(f"Last threshold should be 1. ...") *)
| LengthMismatch           (* Exception("Thresholds list must be same length as colors. ...") *)
| IndexError               (* thresholds[-1] on an empty list *)
| ZeroDivisionError        (* x / y with y == 0 *)
| NoScoreCreated (word : string)  (* Exception(f"No score created for {word}") *)
| InvalidScore.            (* Exception('Invalid Score. All scores should be < 1.') *)

Inductive result (A : Type) : Type :=
| Return (a : A)
| Raise (e : exn).
Arguments Return {A} a.
Arguments Raise {A} e.

#[global] Instance result_ret : MRet result := fun A a => Return a.
#[global] Instance result_bind : MBind result := fun A B k m =>
  match m with
  | Return a => k a
  | Raise e => Raise e
  end.

(** ** Numbers *)

(** What the module does with numbers: the literals [0.0] (the default of
    [defaultdict(float)]) and [1], the true division of two [int]s and of
    two [float]s, [+], [<=] and [==]. *)
Class Num (R : Type) : Type := {
  num_zero : R;
  num_one : R;
  num_int_quot : nat -> nat -> R;   (* a / b on ints, b nonzero *)
  num_div : R -> R -> R;            (* x / y on floats, y nonzero *)
  num_add : R -> R -> R;
  num_leb : R -> R -> bool;
  num_eqb : R -> R -> bool
}.

(** Exact arithmetic: every quotient and sum is the rational it denotes. *)
#[global] Instance Q_Num : Num Q := {
  num_zero := 0%Q;
  num_one := 1%Q;
  num_int_quot a b := (inject_Z (Z.of_nat a) / inject_Z (Z.of_nat b))%Q;
  num_div := Qdiv;
  num_add := Qplus;
  num_leb := Qle_bool;
  num_eqb := Qeq_bool
}.

(** IEEE binary64, the arithmetic Python's [float] runs on.  The
    conversion of a count is exact below 2^53. *)
Definition float_of_nat (n : nat) : float :=
  PrimFloat.of_uint63 (Uint63.of_Z (Z.of_nat n)).

#[global] Instance float_Num : Num float := {
  num_zero := 0%float;
  num_one := 1%float;
  num_int_quot a b := (float_of_nat a / float_of_nat b)%float;
  num_div := PrimFloat.div;
  num_add := PrimFloat.add;
  num_leb := PrimFloat.leb;
  num_eqb := PrimFloat.eqb
}.

(** A positive normal binary64 number, given by its mantissa [m] of 53 bits
    and its exponent [e] (the number is [m * 2^e]), with [e] between [-K]
    and [K]. *)
Definition pnormal (K : Z) (x : float) : Prop :=
  exists m e,
    Prim2SF x = S754_finite false m e
    /\ Zpos (digits2_pos m) = 53%Z
    /\ (- K <= e <= K)%Z.

(** The default arguments of [generateTwoGroupWordCloud].  Each decimal
    literal stands for the binary64 number nearest to it, as in Python. *)
Definition DEFAULT_THRESHOLDS : list float :=
  [0x1.999999999999ap-3%float;   (* 0.2 *)
   0x1.999999999999ap-2%float;   (* 0.4 *)
   0x1.3333333333333p-1%float;   (* 0.6 *)
   0x1.999999999999ap-1%float;   (* 0.8 *)
   1%float].

Definition DEFAULT_COLORS : list string :=
  ["#ff0000"; "#ffa6a6"; "grey"; "#a6c5ff"; "#0059ff"].

(** The one law of [<=] and [==] that the colour lookup relies on: a number
    equal to [b] bounds whatever [b] bounds. *)
Class NumOrder (R : Type) `{Num R} : Prop := {
  num_leb_eqb : forall s a b : R,
    num_eqb a b = true -> num_leb s b = true -> num_leb s a = true
}.

Section Scorer.

Context {R : Type} `{Num R}.

(** [a / b] on two [int]s. *)
Definition int_truediv (a b : nat) : result R :=
  match b with
  | O => Raise ZeroDivisionError
  | S _ => Return (num_int_quot a b)
  end.

(** [x / y] on two [float]s. *)
Definition truediv (x y : R) : result R :=
  if num_eqb y num_zero then Raise ZeroDivisionError
  else Return (num_div x y).

(** *** Validation of the thresholds (lines 85-92) *)

(** [all(thresholds[i] <= thresholds[i+1] for i in range(len(thresholds) - 1))] *)
Definition thresholds_sorted (thresholds : list R) : bool :=
  forallb
    (fun i =>
       match thresholds !! i, thresholds !! (i + 1)%nat with
       | Some a, Some b => num_leb a b
       | _, _ => false
       end)
    (seq 0 (length thresholds - 1)).

Definition validate (thresholds : list R) (colors : list string) : result unit :=
  if negb (thresholds_sorted thresholds) then Raise ThresholdsNotSorted
  else
    match last thresholds with
    | None => Raise IndexError
    | Some t =>
        if negb (num_eqb t num_one) then Raise LastThresholdNotOne
        else if negb (length thresholds =? length colors)%nat then Raise LengthMismatch
        else Return tt
    end.

(** *** Frequencies and scores (lines 101-117) *)

(** [Counter(words)]: each element adds one to its count. *)
Definition Counter (words : list string) : gmap string nat :=
  foldl (fun counter word => <[word := S (default 0%nat (counter !! word))]> counter)
        ∅ words.

(** [{word: counter[word] / n for word in counter}] *)
Definition normalize (counter : gmap string nat) (n : nat) : result (gmap string R) :=
  map_fold
    (fun word count acc =>
       d ← acc;
       f ← int_truediv count n;
       mret (<[word := f]> d))
    (mret ∅) counter.

(** Reading a [defaultdict(float, d)]: [0.0] for an absent key. *)
Definition getitem_default (d : gmap string R) (word : string) : R :=
  default num_zero (d !! word).

(** The loop [for word in words: word_scores[word] = ...]. *)
Definition score_loop (freq1 freq2 : gmap string R) (words : gset string)
  : result (gmap string R) :=
  set_fold
    (fun word acc =>
       word_scores ← acc;
       let group_1_score := getitem_default freq1 word in
       let group_2_score := getitem_default freq2 word in
       score ← truediv group_1_score (num_add group_1_score group_2_score);
       mret (<[word := score]> word_scores))
    (mret ∅) words.

Definition compute_word_scores (group_1_words group_2_words : list string)
  : result (gmap string R) :=
  let group_1_word_counter := Counter group_1_words in
  let group_2_word_counter := Counter group_2_words in
  (* Normalize by size *)
  group_1_word_counter ← normalize group_1_word_counter (length group_1_words);
  group_2_word_counter ← normalize group_2_word_counter (length group_2_words);
  (* Generate word scores *)
  let words : gset string := list_to_set group_1_words ∪ list_to_set group_2_words in
  score_loop group_1_word_counter group_2_word_counter words.

(** *** The colour closure (lines 126-139) *)

(** The closure ignores its keyword arguments; the [print(word)] before the
    first [raise] writes to the standard output and is not kept. *)

(** The loop [for t, c in zip(thresholds, colors)] and the [raise] behind it. *)
Fixpoint first_color (score : R) (pairs : list (R * string)) : result string :=
  match pairs with
  | [] => Raise InvalidScore
  | (t, c) :: rest => if num_leb score t then Return c else first_color score rest
  end.

Definition __choose_color__
    (word_scores : gmap string R) (thresholds : list R) (colors : list string)
    (word : string) : result string :=
  match word_scores !! word with
  | None => Raise (NoScoreCreated word)
  | Some score => first_color score (zip thresholds colors)
  end.

Definition __create_choose_color_func__
    (word_scores : gmap string R) (thresholds : list R) (colors : list string)
  : string -> result string :=
  __choose_color__ word_scores thresholds colors.

(** *** [generateTwoGroupWordCloud] *)

(** What is handed to the renderer: the combined text, and the three values
    the colour closure captures. *)
Record cloud : Type := {
  combined_text : string;
  cloud_word_scores : gmap string R;
  cloud_thresholds : list R;
  cloud_colors : list string
}.

Definition color_func (wc : cloud) : string -> result string :=
  __create_choose_color_func__
    (cloud_word_scores wc) (cloud_thresholds wc) (cloud_colors wc).

Definition generateTwoGroupWordCloud
    (group_1_text group_2_text : string)
    (thresholds : list R) (colors : list string) : result cloud :=
  (* Validate Input *)
  _ ← validate thresholds colors;
  let group_1_text := Text.preprocess_text group_1_text in
  let group_2_text := Text.preprocess_text group_2_text in
  (* Compute Frequencies *)
  let group_1_words := Text.split_space group_1_text in
  let group_2_words := Text.split_space group_2_text in
  word_scores ← compute_word_scores group_1_words group_2_words;
  (* Generate Word Cloud *)
  let combined_text := group_1_text +:+ " " +:+ group_2_text in
  mret {| combined_text := combined_text;
          cloud_word_scores := word_scores;
          cloud_thresholds := thresholds;
          cloud_colors := colors |}.

End Scorer.

Arguments cloud R : clear implicits.

(** The words of a group (lines 94-99): the normalized text, split at the
    spaces. *)
Definition group_words (group_text : string) : list string :=
  Text.split_space (Text.preprocess_text group_text).

(** The [word_scores] dictionary that [generateTwoGroupWordCloud] builds
    from two raw texts, whatever the thresholds. *)
Definition scores_of_texts {R : Type} `{Num R} (group_1_text group_2_text : string)
  : result (gmap string R) :=
  compute_word_scores (group_words group_1_text) (group_words group_2_text).

(** ** The rules of the threshold table, as the specification words them *)

Section TableRules.

Context {R : Type} `{Num R}.

(** Each threshold is at most the one after it. *)
Definition nondecreasing (thresholds : list R) : Prop :=
  forall i a b,
    thresholds !! i = Some a -> thresholds !! (i + 1)%nat = Some b ->
    num_leb a b = true.

(** There is a final threshold, and it equals 1. *)
Definition final_is_one (thresholds : list R) : Prop :=
  exists t, last thresholds = Some t /\ num_eqb t num_one = true.

Definition valid_table (thresholds : list R) (colors : list string) : Prop :=
  nondecreasing thresholds
  /\ final_is_one thresholds
  /\ length thresholds = length colors.

End TableRules.

(** ** Counts and frequencies *)

(** The count of a token in a corpus. *)
Definition occurrences (word : string) (words : list string) : nat :=
  count_occ string_dec words word.

(** What the scoring loop reads for a word from the normalized counter of
    a list of words seen as a [defaultdict(float)]. *)
Definition frequency_read {R : Type} `{Num R} (words : list string) (word : string) : R :=
  match occurrences word words with
  | O => num_zero
  | S _ => num_int_quot (occurrences word words) (length words)
  end.

(** ** The tokens of the pattern, as the specification words them *)

Module Pattern.

(** Regular expressions over character classes, and the strings they match. *)
Inductive regex : Type :=
| Class (p : ascii -> bool)
| Seq (r1 r2 : regex)
| Star (r : regex).

Inductive matches : regex -> string -> Prop :=
| matches_class p c :
    p c = true -> matches (Class p) (String c EmptyString)
| matches_seq r1 r2 s1 s2 :
    matches r1 s1 -> matches r2 s2 -> matches (Seq r1 r2) (s1 +:+ s2)
| matches_star_nil r :
    matches (Star r) EmptyString
| matches_star_cons r s1 s2 :
    matches r s1 -> matches (Star r) s2 -> matches (Star r) (s1 +:+ s2).

(** The pattern [\w[\w']*]. *)
Definition word_pattern : regex :=
  Seq (Class Text.is_word) (Star (Class Text.is_word_or_quote)).

(** [tokens text ms]: [ms] are the non-overlapping matches of the pattern
    in [text], found from left to right.  Where no prefix of the rest of
    the text matches, one character is passed over; where one does, the
    longest matching prefix is the next token and the scan goes on behind
    it. *)
Inductive tokens : string -> list string -> Prop :=
| tokens_end :
    tokens EmptyString []
| tokens_skip c s ms :
    (forall m rest, String c s = m +:+ rest -> ~ matches word_pattern m) ->
    tokens s ms ->
    tokens (String c s) ms
| tokens_match m rest ms :
    matches word_pattern m ->
    (forall m' rest', m +:+ rest = m' +:+ rest' -> matches word_pattern m' ->
       String.length m' <= String.length m) ->
    tokens rest ms ->
    tokens (m +:+ rest) (m :: ms).

(** The words of the normalized text: the tokens of the pattern, each
    without its trailing possessive, the all-digit ones left out. *)
Definition normal_words (text : string) : list string :=
  List.filter (fun word => negb (Text.isdigit word))
    (map Text.strip_possessive (Text.findall text)).

(** A string without a space. *)
Definition spaceless (s : string) : bool :=
  Text.all_chars (fun c => negb (Text.is_code 32 c)) s.

(** The length of the words of a list, one more for each word; it is the
    length of their [join] plus one, when there is a word. *)
Definition weight (words : list string) : nat :=
  list_sum (map (fun w => S (String.length w)) words).

(** A string the pattern matches in full: a word character, then word
    characters and apostrophes. *)
Definition wordlike (s : string) : bool :=
  match s with
  | EmptyString => false
  | String c s' => Text.is_word c && Text.all_chars Text.is_word_or_quote s'
  end.

End Pattern.

(** ** The normalizer, as the specification words it *)

(** Lower case, joining and digits written out letter by letter, for the
    code points 0..255, without the string methods of the code. *)
Module Contract.

Definition UPPER_CASE : string := "ABCDEFGHIJKLMNOPQRSTUVWXYZ".

Definition LOWER_CASE : string := "abcdefghijklmnopqrstuvwxyz".

(** The upper-case letters of Latin-1 (U+00C0..U+00DE without the sign
    U+00D7), each with its lower-case letter (U+00E0..U+00FE). *)
Definition LATIN_1_CASE : list (N * N) :=
  [(192, 224); (193, 225); (194, 226); (195, 227); (196, 228); (197, 229);
   (198, 230); (199, 231); (200, 232); (201, 233); (202, 234); (203, 235);
   (204, 236); (205, 237); (206, 238); (207, 239); (208, 240); (209, 241);
   (210, 242); (211, 243); (212, 244); (213, 245); (214, 246); (216, 248);
   (217, 249); (218, 250); (219, 251); (220, 252); (221, 253); (222, 254)]%N.

Definition case_table : list (ascii * ascii) :=
  (combine (list_ascii_of_string UPPER_CASE) (list_ascii_of_string LOWER_CASE)
   ++ map (fun p => (ascii_of_N (fst p), ascii_of_N (snd p))) LATIN_1_CASE)%list.

Fixpoint lookup_case (table : list (ascii * ascii)) (c : ascii) : ascii :=
  match table with
  | [] => c
  | (upper, lower) :: table' =>
      if Ascii.eqb c upper then lower else lookup_case table' c
  end.

(** A letter in lower case: an upper-case letter becomes its lower-case
    letter, every other character stays. *)
Definition lowercase_char (c : ascii) : ascii := lookup_case case_table c.

Fixpoint lowercased (s : string) : string :=
  match s with
  | EmptyString => EmptyString
  | String c s' => String (lowercase_char c) (lowercased s')
  end.

(** The words in a row, one space between two neighbours. *)
Fixpoint joined (words : list string) : string :=
  match words with
  | [] => EmptyString
  | word :: words' =>
      match words' with
      | [] => word
      | _ :: _ => word +:+ String " " (joined words')
      end
  end.

Definition DIGITS : string := "0123456789".

(** The superscripts two, three and one, which [str.isdigit] takes for
    digits as well. *)
Definition SUPERSCRIPT_DIGITS : list N := [178; 179; 185]%N.

Definition is_digit (c : ascii) : bool :=
  existsb (Ascii.eqb c)
    (list_ascii_of_string DIGITS ++ map ascii_of_N SUPERSCRIPT_DIGITS)%list.

(** A token made of digits only (and of one digit at least). *)
Definition all_digits (word : string) : bool :=
  match list_ascii_of_string word with
  | [] => false
  | c :: chars => forallb is_digit (c :: chars)
  end.

(** [without_possessive word word']: [word'] is [word] without its trailing
    ['s] (the [s] in either case), or [word] itself when it has none. *)
Inductive without_possessive : string -> string -> Prop :=
| possessive_stripped stem x :
    x = "s"%char \/ x = "S"%char ->
    without_possessive (stem +:+ String "'" (String x EmptyString)) stem
| possessive_absent word :
    (forall stem x, word = stem +:+ String "'" (String x EmptyString) ->
       x <> "s"%char /\ x <> "S"%char) ->
    without_possessive word word.

End Contract.

(** ** The earlier version of the module ([CloudModule-checkpoint.py]) *)

(** The version kept in [.ipynb_checkpoints] has no [preprocess_text]: it
    scores the texts as they come and prints two warnings about them.  Its
    validation, its scoring and its colour closure are the ones above. *)
Module Checkpoint.

Definition PUNCTUATION : string := ".,?!".

(** [p in group] for a string [p] of one character. *)
Fixpoint contains_char (p : ascii) (group : string) : bool :=
  match group with
  | EmptyString => false
  | String c group' => Ascii.eqb c p || contains_char p group'
  end.

(** [any(p in group for group in [group_1_text, group_2_text] for p in PUNCTUATION)] *)
Definition has_punctuation (group_1_text group_2_text : string) : bool :=
  existsb
    (fun group =>
       existsb (fun p => contains_char p group) (list_ascii_of_string PUNCTUATION))
    [group_1_text; group_2_text].

(** The upper-case and the lower-case letters of the code points 0..255
    ([str.isupper] and [str.islower] on one character). *)
Definition char_isupper (c : ascii) : bool :=
  Text.in_range 65 90 c || Text.in_range 192 214 c || Text.in_range 216 222 c.

Definition char_islower (c : ascii) : bool :=
  Text.in_range 97 122 c
  || Text.is_code 170 c || Text.is_code 181 c || Text.is_code 186 c
  || Text.in_range 223 246 c || Text.in_range 248 255 c.

(** [text.islower()]: no upper-case letter, and at least one lower-case
    letter. *)
Definition islower (text : string) : bool :=
  Text.all_chars (fun c => negb (char_isupper c)) text
  && negb (Text.all_chars (fun c => negb (char_islower c)) text).

Definition WARNING_PUNCTUATION : string :=
  "Warning: Text has punctuation. Consider removing punctuation for better results.".

Definition WARNING_LOWERCASE : string :=
  "Warning: Text is not lowercase. Consider preprocessing with .lower() for improved results.".

Section Version.

Context {R : Type} `{Num R}.

(** The function returns the lines it printed, and its result. *)
Definition generateTwoGroupWordCloud
    (group_1_text group_2_text : string)
    (thresholds : list R) (colors : list string) : list string * result (cloud R) :=
  (* Validate Input *)
  match validate thresholds colors with
  | Raise e => ([], Raise e)
  | Return _ =>
      let printed_1 :=
        if has_punctuation group_1_text group_2_text
        then [WARNING_PUNCTUATION] else [] in
      let printed_2 :=
        if negb (islower group_1_text) && islower group_2_text
        then [WARNING_LOWERCASE] else [] in
      (* Compute Frequencies *)
      let group_1_words := Text.split_space group_1_text in
      let group_2_words := Text.split_space group_2_text in
      ((printed_1 ++ printed_2)%list,
       word_scores ← compute_word_scores group_1_words group_2_words;
       (* Generate Word Cloud *)
       let combined_text := group_1_text +:+ " " +:+ group_2_text in
       mret {| combined_text := combined_text;
               cloud_word_scores := word_scores;
               cloud_thresholds := thresholds;
               cloud_colors := colors |})
  end.

End Version.

End Checkpoint.

(** ** Sums over the dictionaries *)

(** [sum(counter.values())] *)
Definition counter_total (counter : gmap string nat) : nat :=
  map_fold (fun _ count acc => (count + acc)%nat) 0%nat counter.

(** A character of a normalized text: a word character, an apostrophe or a
    space, and not an upper-case letter. *)
Definition normal_char (c : ascii) : bool :=
  (Text.is_word_or_quote c || Text.is_code 32 c)
  && Ascii.eqb (Text.char_lower c) c.

(** * Properties *)

#[local] Arguments String.append : simpl nomatch.

Example preprocess_text_sample :
  Text.preprocess_text "The Dog's 42 bones, and O'Neil's 7up!" = "the dog bones and o'neil 7up".
Proof. vm_compute. reflexivity. Qed.

Example preprocess_text_twice :
  Text.preprocess_text "dog's's" = "dog's" /\ Text.preprocess_text "dog's" = "dog".
Proof. vm_compute. split; reflexivity. Qed.

Example preprocess_text_upper_case :
  Text.preprocess_text "DOG'S Bowl" = "dog bowl" /\ Text.preprocess_text "42's" = "".
Proof. vm_compute. split; reflexivity. Qed.

Example default_table_is_valid :
  validate DEFAULT_THRESHOLDS DEFAULT_COLORS = Return tt.
Proof. reflexivity. Qed.

Example split_space_samples :
  Text.split_space "" = [""] /\ Text.split_space "a b" = ["a"; "b"]
  /\ Text.split_space " a  b " = [""; "a"; ""; "b"; ""].
Proof. vm_compute. repeat split; reflexivity. Qed.

(** ** Validation and the colour closure, for any arithmetic *)

Section ScorerFacts.

Context {R : Type} `{Num R}.

Lemma thresholds_sorted_iff (thresholds : list R) :
  thresholds_sorted thresholds = true <-> nondecreasing thresholds.
Proof.
  unfold thresholds_sorted, nondecreasing. rewrite forallb_forall. split.
  - intros Hall i a b Ha Hb.
    assert (Hi : In i (seq 0 (length thresholds - 1))).
    { apply in_seq. apply lookup_lt_Some in Hb. lia. }
    specialize (Hall i Hi). rewrite Ha, Hb in Hall. exact Hall.
  - intros Hnd i Hi. apply in_seq in Hi.
    destruct (lookup_lt_is_Some_2 thresholds i) as [a Ha]; [lia|].
    destruct (lookup_lt_is_Some_2 thresholds (i + 1)) as [b Hb]; [lia|].
    rewrite Ha, Hb. eauto.
Qed.

Lemma validate_Return (thresholds : list R) (colors : list string) :
  validate thresholds colors = Return tt <-> valid_table thresholds colors.
Proof.
  unfold validate, valid_table, final_is_one.
  rewrite <- thresholds_sorted_iff.
  destruct (thresholds_sorted thresholds); simpl.
  2:{ split; [discriminate | intros [? _]; discriminate]. }
  destruct (last thresholds) as [t|].
  2:{ split; [discriminate | intros (_ & (t & Ht & _) & _); discriminate]. }
  destruct (num_eqb t num_one) eqn:Hone; simpl.
  2:{ split; [discriminate |].
      intros (_ & (t' & Ht' & Ht1) & _). congruence. }
  destruct (Nat.eqb_spec (length thresholds) (length colors)) as [Hlen|Hlen]; simpl.
  - split; [|reflexivity]. intros _. repeat split; eauto.
  - split; [discriminate | intros (_ & _ & ?); contradiction].
Qed.

Lemma validate_Raise_aborts (thresholds : list R) (colors : list string) (e : exn) :
  validate thresholds colors = Raise e ->
  forall group_1_text group_2_text,
    generateTwoGroupWordCloud group_1_text group_2_text thresholds colors = Raise e.
Proof.
  intros He g1 g2. unfold generateTwoGroupWordCloud. rewrite He. reflexivity.
Qed.

(** Which exception each broken rule raises, in the order of the checks. *)
Lemma validate_errors (thresholds : list R) (colors : list string) (e : exn) :
  validate thresholds colors = Raise e ->
  (e = ThresholdsNotSorted /\ ~ nondecreasing thresholds)
  \/ (e = IndexError /\ thresholds = [])
  \/ (e = LastThresholdNotOne /\ nondecreasing thresholds /\ ~ final_is_one thresholds)
  \/ (e = LengthMismatch /\ nondecreasing thresholds /\ final_is_one thresholds
      /\ length thresholds <> length colors).
Proof.
  unfold validate, final_is_one. rewrite <- thresholds_sorted_iff.
  destruct (thresholds_sorted thresholds); simpl.
  2:{ intros [= <-]. left. split; [reflexivity | discriminate]. }
  destruct (last thresholds) as [t|] eqn:Hlast.
  2:{ intros [= <-]. right; left. split; [reflexivity|].
      destruct thresholds as [|a l]; [reflexivity|].
      apply last_None in Hlast. exact Hlast. }
  destruct (num_eqb t num_one) eqn:Hone; simpl.
  2:{ intros [= <-]. right; right; left. repeat split; auto.
      intros (t' & [= <-] & Ht1). congruence. }
  destruct (Nat.eqb_spec (length thresholds) (length colors)) as [Hlen|Hlen]; simpl.
  - discriminate.
  - intros [= <-]. right; right; right. repeat split; eauto.
Qed.

(** C3: validation passes exactly when the thresholds are non-decreasing,
    their final element equals 1 and there are as many thresholds as
    colours; when one of the three rules is broken, validation raises, and
    [generateTwoGroupWordCloud] raises that same exception whatever the two
    texts are, that is before it scores anything. *)
Theorem validate_iff_valid_table (thresholds : list R) (colors : list string) :
  (validate thresholds colors = Return tt <-> valid_table thresholds colors)
  /\ (~ valid_table thresholds colors ->
      exists e, validate thresholds colors = Raise e
        /\ forall group_1_text group_2_text,
             generateTwoGroupWordCloud group_1_text group_2_text thresholds colors
             = Raise e).
Proof.
  split; [apply validate_Return|].
  intros Hbad. destruct (validate thresholds colors) as [[]|e] eqn:Hv.
  - apply validate_Return in Hv. contradiction.
  - exists e. split; [reflexivity|]. now apply validate_Raise_aborts.
Qed.

Lemma first_color_found (score : R) :
  forall (i : nat) (thresholds : list R) (colors : list string) (t : R) (c : string),
    thresholds !! i = Some t -> colors !! i = Some c ->
    num_leb score t = true ->
    (forall j t', (j < i)%nat -> thresholds !! j = Some t' -> num_leb score t' = false) ->
    first_color score (zip thresholds colors) = Return c.
Proof.
  induction i as [|i IH]; intros [|t0 ths] [|c0 cols] t c Ht Hc Hle Hfirst;
    try discriminate; simpl in *.
  - injection Ht as ->. injection Hc as ->. rewrite Hle. reflexivity.
  - rewrite (Hfirst 0%nat t0) by (reflexivity || lia).
    apply (IH ths cols t c); auto.
    intros j t' Hj Hl. apply (Hfirst (S j) t'); [lia | exact Hl].
Qed.

Lemma first_color_none (score : R) :
  forall (thresholds : list R) (colors : list string),
    (forall t, t ∈ thresholds -> num_leb score t = false) ->
    first_color score (zip thresholds colors) = Raise InvalidScore.
Proof.
  induction thresholds as [|t0 ths IH]; intros [|c0 cols] Hall; simpl; try reflexivity.
  rewrite (Hall t0) by apply list_elem_of_here.
  apply IH. intros t Ht. apply Hall. now apply list_elem_of_further.
Qed.

(** A colour comes back only from a threshold that bounds the score, and
    every threshold before it does not. *)
Lemma first_color_Return (score : R) :
  forall (thresholds : list R) (colors : list string) (c : string),
    first_color score (zip thresholds colors) = Return c ->
    exists i t, thresholds !! i = Some t /\ colors !! i = Some c
      /\ num_leb score t = true
      /\ forall j t', (j < i)%nat -> thresholds !! j = Some t' -> num_leb score t' = false.
Proof.
  induction thresholds as [|t0 ths IH]; intros [|c0 cols] c Hc; simpl in *;
    try discriminate.
  destruct (num_leb score t0) eqn:Hle.
  - injection Hc as <-. exists 0%nat, t0. repeat split; auto. intros; lia.
  - destruct (IH cols c Hc) as (i & t & Ht & Hci & Hlt & Hfirst).
    exists (S i), t. repeat split; auto.
    intros [|j] t' Hj Hl; simpl in Hl.
    + congruence.
    + apply (Hfirst j t'); [lia | exact Hl].
Qed.

(** The branch behind the loop: it is taken exactly when no threshold
    bounds the score. *)
Lemma choose_color_InvalidScore
    (word_scores : gmap string R) (thresholds : list R) (colors : list string)
    (word : string) (score : R) :
  validate thresholds colors = Return tt ->
  word_scores !! word = Some score ->
  (__create_choose_color_func__ word_scores thresholds colors word = Raise InvalidScore
   <-> forall t, t ∈ thresholds -> num_leb score t = false).
Proof.
  intros Hv Hs. apply validate_Return in Hv. destruct Hv as (_ & _ & Hlen).
  unfold __create_choose_color_func__, __choose_color__. rewrite Hs. split.
  - intros Hraise t Ht. destruct (num_leb score t) eqn:Hle; [|reflexivity].
    exfalso. revert colors Hlen Hraise.
    induction thresholds as [|t0 ths IH]; intros [|c0 cols] Hlen Hraise;
      simpl in *; try discriminate.
    + inversion Ht.
    + destruct (num_leb score t0) eqn:Hle0; [discriminate|].
      apply elem_of_cons in Ht as [->|Ht]; [congruence|].
      apply (IH Ht cols); [lia | exact Hraise].
  - apply first_color_none.
Qed.

Lemma choose_color_bounded `{!NumOrder R}
    (word_scores : gmap string R) (thresholds : list R) (colors : list string)
    (word : string) (score : R) :
  validate thresholds colors = Return tt ->
  word_scores !! word = Some score ->
  num_leb score num_one = true ->
  (exists t, t ∈ thresholds /\ num_leb score t = true)
  /\ (exists c, __create_choose_color_func__ word_scores thresholds colors word = Return c).
Proof.
  intros Hv Hs Hle1.
  pose proof Hv as Hv'. apply validate_Return in Hv'.
  destruct Hv' as (_ & (tl & Hlast & Hone) & Hlen).
  assert (Hbound : exists t, t ∈ thresholds /\ num_leb score t = true).
  { exists tl. split.
    - eapply last_Some_elem_of; eauto.
    - eapply num_leb_eqb; eauto. }
  split; [exact Hbound |].
  assert (Hnot : __create_choose_color_func__ word_scores thresholds colors word
                 <> Raise InvalidScore).
  { intros Hraise. rewrite (choose_color_InvalidScore _ _ _ _ _ Hv Hs) in Hraise.
    destruct Hbound as (t & Ht & Hle). rewrite (Hraise t Ht) in Hle. discriminate. }
  unfold __create_choose_color_func__, __choose_color__ in *. rewrite Hs in *.
  clear Hs Hv Hlast Hone Hbound Hle1.
  revert colors Hlen Hnot.
  induction thresholds as [|t0 ths IH]; intros [|c0 cols] Hlen Hnot; simpl in *;
    try discriminate; try congruence.
  destruct (num_leb score t0); [eauto |]. apply IH; [lia | exact Hnot].
Qed.

(** C1: with a validated thresholds/colours pair, a word that has a score
    gets the colour at the position of the first threshold (in list order,
    which validation makes ascending order) that is greater than or equal
    to the score, and a score of at most 1 has such a threshold; a word
    without a score raises the lookup error. *)
Theorem choose_color_first_threshold `{!NumOrder R}
    (word_scores : gmap string R) (thresholds : list R) (colors : list string)
    (word : string) :
  validate thresholds colors = Return tt ->
  nondecreasing thresholds
  /\ (forall score i t,
        word_scores !! word = Some score ->
        thresholds !! i = Some t ->
        num_leb score t = true ->
        (forall j t', (j < i)%nat -> thresholds !! j = Some t' -> num_leb score t' = false) ->
        exists c, colors !! i = Some c
          /\ __create_choose_color_func__ word_scores thresholds colors word = Return c)
  /\ (forall score,
        word_scores !! word = Some score ->
        num_leb score num_one = true ->
        exists i t c,
          thresholds !! i = Some t /\ colors !! i = Some c
          /\ num_leb score t = true
          /\ (forall j t', (j < i)%nat -> thresholds !! j = Some t' ->
                num_leb score t' = false)
          /\ __create_choose_color_func__ word_scores thresholds colors word = Return c)
  /\ (word_scores !! word = None ->
      __create_choose_color_func__ word_scores thresholds colors word
      = Raise (NoScoreCreated word)).
Proof.
  intros Hv. pose proof Hv as Hv'. apply validate_Return in Hv'.
  destruct Hv' as (Hnd & _ & Hlen).
  split; [exact Hnd |]. split; [|split].
  - intros score i t Hs Ht Hle Hfirst.
    destruct (lookup_lt_is_Some_2 colors i) as [c Hc].
    { rewrite <- Hlen. eapply lookup_lt_Some; eauto. }
    exists c. split; [exact Hc |].
    unfold __create_choose_color_func__, __choose_color__. rewrite Hs.
    eapply first_color_found; eauto.
  - intros score Hs Hle1.
    destruct (choose_color_bounded _ _ _ _ _ Hv Hs Hle1) as [_ [c Hc]].
    pose proof Hc as Hc'.
    unfold __create_choose_color_func__, __choose_color__ in Hc'. rewrite Hs in Hc'.
    apply first_color_Return in Hc' as (i & t & Ht & Hci & Hle & Hfirst).
    exists i, t, c. auto.
  - intros Hnone. unfold __create_choose_color_func__, __choose_color__.
    rewrite Hnone. reflexivity.
Qed.

(** C8: with a validated thresholds/colours pair (so the final threshold
    equals 1) and a score that is at most 1, some threshold is greater than
    or equal to the score, the closure returns a colour, and the exception
    behind the loop is not raised. *)
Theorem invalid_score_unreachable `{!NumOrder R}
    (word_scores : gmap string R) (thresholds : list R) (colors : list string)
    (word : string) (score : R) :
  validate thresholds colors = Return tt ->
  word_scores !! word = Some score ->
  num_leb score num_one = true ->
  (exists t, t ∈ thresholds /\ num_leb score t = true)
  /\ (exists c, __create_choose_color_func__ word_scores thresholds colors word = Return c)
  /\ __create_choose_color_func__ word_scores thresholds colors word <> Raise InvalidScore.
Proof.
  intros Hv Hs Hle1.
  destruct (choose_color_bounded _ _ _ _ _ Hv Hs Hle1) as [Hbound [c Hc]].
  split; [exact Hbound |]. split; [now exists c |].
  rewrite Hc. discriminate.
Qed.

(** With a validated table, [generateTwoGroupWordCloud] is the scoring of
    the two texts, packed for the renderer. *)
Lemma generateTwoGroupWordCloud_valid
    (group_1_text group_2_text : string) (thresholds : list R) (colors : list string) :
  validate thresholds colors = Return tt ->
  generateTwoGroupWordCloud group_1_text group_2_text thresholds colors
  = (word_scores ← scores_of_texts group_1_text group_2_text;
     mret {| combined_text :=
               Text.preprocess_text group_1_text +:+ " "
               +:+ Text.preprocess_text group_2_text;
             cloud_word_scores := word_scores;
             cloud_thresholds := thresholds;
             cloud_colors := colors |}).
Proof. intros Hv. unfold generateTwoGroupWordCloud. rewrite Hv. reflexivity. Qed.

End ScorerFacts.

(** ** The two arithmetics obey the law of [NumOrder] *)

#[global] Instance Q_NumOrder : NumOrder Q.
Proof.
  constructor. intros s a b Hab Hsb. simpl in *.
  apply Qeq_bool_iff in Hab. apply Qle_bool_iff in Hsb. apply Qle_bool_iff.
  rewrite Hab. exact Hsb.
Qed.

Lemma SFeqb_finite_eq (a b : spec_float) :
  SFeqb a b = true ->
  match a, b with
  | S754_finite _ _ _, S754_finite _ _ _ => a = b
  | _, _ => True
  end.
Proof.
  destruct a as [sa| sa| |sa ma ea], b as [sb| sb| |sb mb eb]; try exact (fun _ => I).
  unfold SFeqb, SFcompare.
  destruct sa, sb; try discriminate;
    destruct (Z.compare ea eb) eqn:He; try discriminate;
    destruct (Pos.compare_cont Eq ma mb) eqn:Hm; try discriminate;
    intros _; apply Z.compare_eq in He; apply Pos.compare_eq in Hm;
    subst; reflexivity.
Qed.

Lemma SFleb_SFeqb (s a b : spec_float) :
  SFeqb a b = true -> SFleb s b = true -> SFleb s a = true.
Proof.
  intros Hab. pose proof (SFeqb_finite_eq a b Hab) as Hfin. revert Hab Hfin.
  destruct a as [sa| sa| |sa ma ea], b as [sb| sb| |sb mb eb];
    try (intros Hab; discriminate Hab); intros Hab Hfin;
    try (rewrite Hfin; exact (fun h => h));
    try (destruct sa, sb; try discriminate Hab; exact (fun h => h)).
Qed.

#[global] Instance float_NumOrder : NumOrder float.
Proof.
  constructor. intros s a b. simpl.
  rewrite FloatAxioms.eqb_spec, !FloatAxioms.leb_spec. apply SFleb_SFeqb.
Qed.

(** ** Strings *)

Section StringFacts.

Import Text.

Lemma append_empty_r (s : string) : s +:+ "" = s.
Proof. induction s as [|c s IH]; simpl; [reflexivity | now rewrite IH]. Qed.

Lemma append_assoc (s1 s2 s3 : string) : (s1 +:+ s2) +:+ s3 = s1 +:+ (s2 +:+ s3).
Proof. induction s1 as [|c s1 IH]; simpl; [reflexivity | now rewrite IH]. Qed.

Lemma length_append (s1 s2 : string) :
  String.length (s1 +:+ s2) = (String.length s1 + String.length s2)%nat.
Proof. induction s1 as [|c s1 IH]; simpl; [reflexivity | now rewrite IH]. Qed.

Lemma length_zero_empty (s : string) : String.length s = 0%nat -> s = "".
Proof. destruct s; [reflexivity | discriminate]. Qed.

Lemma substring_prefix (a b : string) : substring 0 (String.length a) (a +:+ b) = a.
Proof.
  induction a as [|c a IH]; simpl.
  - destruct b; reflexivity.
  - now rewrite IH.
Qed.

(** *** Character classes under [lower] *)

Lemma is_word_char_lower (c : ascii) : is_word (char_lower c) = is_word c.
Proof. destruct c as [[] [] [] [] [] [] [] []]; reflexivity. Qed.

Lemma is_word_or_quote_char_lower (c : ascii) :
  is_word_or_quote (char_lower c) = is_word_or_quote c.
Proof. destruct c as [[] [] [] [] [] [] [] []]; reflexivity. Qed.

Lemma char_isdigit_char_lower (c : ascii) : char_isdigit (char_lower c) = char_isdigit c.
Proof. destruct c as [[] [] [] [] [] [] [] []]; reflexivity. Qed.

Lemma char_lower_idempotent (c : ascii) : char_lower (char_lower c) = char_lower c.
Proof. destruct c as [[] [] [] [] [] [] [] []]; reflexivity. Qed.

Lemma char_lower_quote (c : ascii) : char_lower c = "'"%char -> c = "'"%char.
Proof. destruct c as [[] [] [] [] [] [] [] []]; (reflexivity || discriminate). Qed.

Lemma space_not_word_or_quote (c : ascii) :
  is_code 32 c = true -> is_word_or_quote c = false.
Proof. destruct c as [[] [] [] [] [] [] [] []]; (reflexivity || discriminate). Qed.

Lemma is_word_is_word_or_quote (c : ascii) :
  is_word c = true -> is_word_or_quote c = true.
Proof. unfold is_word_or_quote. now intros ->. Qed.

(** *** [lower] *)

Lemma lower_append (s1 s2 : string) : lower (s1 +:+ s2) = lower s1 +:+ lower s2.
Proof. induction s1 as [|c s1 IH]; simpl; [reflexivity | now rewrite IH]. Qed.

Lemma lower_idempotent (s : string) : lower (lower s) = lower s.
Proof.
  induction s as [|c s IH]; simpl; [reflexivity |].
  now rewrite char_lower_idempotent, IH.
Qed.

Lemma length_lower (s : string) : String.length (lower s) = String.length s.
Proof. induction s as [|c s IH]; simpl; [reflexivity | now rewrite IH]. Qed.

Lemma all_chars_lower_word_or_quote (s : string) :
  all_chars is_word_or_quote (lower s) = all_chars is_word_or_quote s.
Proof.
  induction s as [|c s IH]; simpl; [reflexivity |].
  now rewrite is_word_or_quote_char_lower, IH.
Qed.

Lemma isdigit_lower (s : string) : isdigit (lower s) = isdigit s.
Proof.
  destruct s as [|c s]; [reflexivity |]. simpl.
  rewrite char_isdigit_char_lower. f_equal.
  induction s as [|d s IH]; simpl; [reflexivity |].
  now rewrite char_isdigit_char_lower, IH.
Qed.

Lemma join_space_cons (x y : string) (words : list string) :
  join_space (x :: y :: words) = x +:+ " " +:+ join_space (y :: words).
Proof. reflexivity. Qed.

Lemma lower_join_space (words : list string) :
  lower (join_space words) = join_space (map lower words).
Proof.
  induction words as [|x words IH]; [reflexivity |].
  destruct words as [|y words]; [reflexivity |].
  change (map lower (x :: y :: words))
    with (lower x :: lower y :: map lower words).
  rewrite !join_space_cons, !lower_append, IH. reflexivity.
Qed.

Lemma all_chars_append (p : ascii -> bool) (s1 s2 : string) :
  all_chars p (s1 +:+ s2) = all_chars p s1 && all_chars p s2.
Proof.
  induction s1 as [|c s1 IH]; simpl; [reflexivity |].
  now rewrite IH, andb_assoc.
Qed.

(** *** [endswith] and [word[:-2]] *)

Lemma endswith_iff (s suffix : string) :
  endswith s suffix = true <-> exists stem, s = stem +:+ suffix.
Proof.
  induction s as [|c s IH]; cbn [endswith].
  - rewrite orb_false_r. split.
    + intros Heq. apply String.eqb_eq in Heq. subst. now exists "".
    + intros [stem Hs]. destruct stem; simpl in Hs; [|discriminate].
      subst. reflexivity.
  - rewrite orb_true_iff, IH, String.eqb_eq. split.
    + intros [<- | [stem ->]]; [now exists "" | now exists (String c stem)].
    + intros [[|c' stem] Hs]; simpl in Hs; [now left |].
      injection Hs as -> ->. right. now exists stem.
Qed.

Lemma lower_append_inv (s u v : string) :
  lower s = u +:+ v -> exists a b, s = a +:+ b /\ lower a = u /\ lower b = v.
Proof.
  revert u. induction s as [|c s IH]; intros [|d u] Hs; simpl in *.
  - exists "", "". auto.
  - discriminate.
  - exists "", (String c s). auto.
  - injection Hs as Hc Hs. destruct (IH u Hs) as (a & b & -> & Ha & Hb).
    exists (String c a), b. simpl. rewrite Ha, Hc. auto.
Qed.

(** A possessive, whatever its case: the stem, an apostrophe, and [s] or [S]. *)
Lemma endswith_lower_possessive (word : string) :
  endswith (lower word) "'s" = true <->
  exists stem x, word = stem +:+ String "'" (String x "") /\ char_lower x = "s"%char.
Proof.
  rewrite endswith_iff. split.
  - intros [u Hu]. apply lower_append_inv in Hu as (stem & b & -> & _ & Hb).
    destruct b as [|q [|x [|]]]; simpl in Hb; try discriminate.
    injection Hb as Hq Hx. apply char_lower_quote in Hq. subst q.
    now exists stem, x.
  - intros (stem & x & -> & Hx). exists (lower stem).
    rewrite lower_append. simpl. now rewrite Hx.
Qed.

Lemma drop_last2_append (stem : string) (q x : ascii) :
  drop_last2 (stem +:+ String q (String x "")) = stem.
Proof.
  unfold drop_last2. rewrite length_append. simpl.
  replace (String.length stem + 2 - 2)%nat with (String.length stem) by lia.
  apply substring_prefix.
Qed.

(** What [strip_possessive] does: a word that ends in ['s] or ['S] loses
    these two characters, any other word is kept. *)
Lemma strip_possessive_spec (word : string) :
  (exists stem x, word = stem +:+ String "'" (String x "")
     /\ char_lower x = "s"%char /\ strip_possessive word = stem)
  \/ (endswith (lower word) "'s" = false /\ strip_possessive word = word).
Proof.
  unfold strip_possessive.
  destruct (endswith (lower word) "'s") eqn:He; [left | right; auto].
  apply endswith_lower_possessive in He as (stem & x & -> & Hx).
  exists stem, x. rewrite drop_last2_append. auto.
Qed.

End StringFacts.

(** ** [findall] returns the tokens of the pattern *)

Section FindallFacts.

Import Text Pattern.

Lemma matches_star_class (p : ascii -> bool) (s : string) :
  matches (Star (Class p)) s <-> all_chars p s = true.
Proof.
  split.
  - intros Hm. remember (Star (Class p)) as r eqn:Hr.
    induction Hm as [| | r |r s1 s2 Hm1 _ Hm2 IH2]; try discriminate.
    + reflexivity.
    + injection Hr as ->. rewrite all_chars_append, (IH2 eq_refl), andb_true_r.
      inversion Hm1; subst. simpl. now rewrite andb_true_r.
  - induction s as [|c s IH]; simpl; intros Hall.
    + constructor.
    + apply andb_true_iff in Hall as [Hc Hs].
      apply (matches_star_cons (Class p) (String c "") s); [now constructor | auto].
Qed.

Lemma matches_word_pattern (m : string) :
  matches word_pattern m <-> wordlike m = true.
Proof.
  unfold word_pattern. split.
  - intros Hm. inversion Hm as [|r1 r2 s1 s2 H1 H2| |]; subst.
    inversion H1; subst. apply matches_star_class in H2.
    simpl. now apply andb_true_iff.
  - destruct m as [|c t]; simpl; [discriminate |].
    intros Hw. apply andb_true_iff in Hw as [Hc Ht].
    apply (matches_seq _ _ (String c "") t); [now constructor |].
    now apply matches_star_class.
Qed.

Lemma wordlike_lower (s : string) : wordlike (lower s) = wordlike s.
Proof.
  destruct s as [|c s]; [reflexivity |]. simpl.
  now rewrite is_word_char_lower, all_chars_lower_word_or_quote.
Qed.

Lemma wordlike_prefix (a b : string) :
  wordlike (a +:+ b) = true -> a <> "" -> wordlike a = true.
Proof.
  destruct a as [|c a]; [congruence |]. simpl. intros Hw _.
  apply andb_true_iff in Hw as [Hc Hall]. rewrite all_chars_append in Hall.
  apply andb_true_iff in Hall as [Ha _]. now rewrite Hc, Ha.
Qed.

(** The star takes a run of [[\w']] characters ... *)
Lemma star_all_chars (s : string) :
  all_chars is_word_or_quote (star_word_or_quote s) = true.
Proof.
  induction s as [|c s IH]; simpl; [reflexivity |].
  destruct (is_word_or_quote c) eqn:Hc; simpl; [now rewrite Hc | reflexivity].
Qed.

(** ... that is a prefix of the string ... *)
Lemma star_is_prefix (s : string) :
  exists rest, s = star_word_or_quote s +:+ rest.
Proof.
  induction s as [|c s [rest IH]]; simpl.
  - now exists "".
  - destruct (is_word_or_quote c).
    + exists rest. simpl. now rewrite <- IH.
    + now exists (String c s).
Qed.

(** ... and every such prefix is inside it. *)
Lemma star_longest (a b : string) :
  all_chars is_word_or_quote a = true ->
  star_word_or_quote (a +:+ b) = a +:+ star_word_or_quote b.
Proof.
  induction a as [|c a IH]; simpl; [reflexivity |].
  intros Hall. apply andb_true_iff in Hall as [-> Ha]. now rewrite IH.
Qed.

Lemma match_here_Some (s m : string) :
  match_here s = Some m ->
  wordlike m = true
  /\ (exists rest, s = m +:+ rest)
  /\ (forall m' rest', s = m' +:+ rest' -> wordlike m' = true ->
        String.length m' <= String.length m).
Proof.
  destruct s as [|c s]; simpl; [discriminate |].
  destruct (is_word c) eqn:Hc; [|discriminate]. intros [= <-].
  split; [|split].
  - simpl. now rewrite Hc, star_all_chars.
  - destruct (star_is_prefix s) as [rest Hrest]. exists rest. simpl.
    now rewrite <- Hrest.
  - intros [|c' m'] rest' Hs Hw; simpl in *; [discriminate |].
    injection Hs as <- ->. apply andb_true_iff in Hw as [_ Hall].
    rewrite (star_longest _ _ Hall), length_append. lia.
Qed.

Lemma match_here_None (s : string) :
  match_here s = None ->
  forall m rest, s = m +:+ rest -> wordlike m = false.
Proof.
  destruct s as [|c s]; simpl.
  - intros _ [|c' m] rest; [reflexivity | discriminate].
  - destruct (is_word c) eqn:Hc; [discriminate |].
    intros _ [|c' m] rest Hs; [reflexivity |]. simpl in *.
    injection Hs as <- _. now rewrite Hc.
Qed.

(** After a match the scan passes over its characters. *)
Lemma findall_from_skip (a rest : string) :
  findall_from (String.length a) (a +:+ rest) = findall_from 0 rest.
Proof. induction a as [|c a IH]; simpl; [reflexivity | exact IH]. Qed.

(** A longest match at the head of the text is the first token found. *)
Lemma findall_longest_match (m rest : string) :
  wordlike m = true ->
  (forall m' rest', m +:+ rest = m' +:+ rest' -> wordlike m' = true ->
     String.length m' <= String.length m) ->
  findall (m +:+ rest) = m :: findall rest.
Proof.
  intros Hw Hmax. destruct m as [|c t]; [discriminate |].
  pose proof Hw as Hw'. simpl in Hw'. apply andb_true_iff in Hw' as [Hc Ht].
  unfold findall. cbn [append findall_from match_here]. rewrite Hc.
  rewrite (star_longest _ _ Ht).
  destruct (star_is_prefix rest) as [rest' Hrest].
  assert (Hlen : String.length (String c (t +:+ star_word_or_quote rest))
                 <= String.length (String c t)).
  { apply (Hmax _ rest').
    - simpl. rewrite append_assoc, <- Hrest. reflexivity.
    - simpl. now rewrite Hc, all_chars_append, Ht, star_all_chars. }
  simpl in Hlen. rewrite length_append in Hlen.
  assert (Hnil : star_word_or_quote rest = "") by (apply length_zero_empty; lia).
  rewrite Hnil, append_empty_r.
  replace (String.length (String c t) - 1)%nat with (String.length t)
    by (simpl; lia).
  f_equal. apply findall_from_skip.
Qed.

Lemma findall_no_match (c : ascii) (s : string) :
  is_word c = false -> findall (String c s) = findall s.
Proof. intros Hc. unfold findall. simpl. now rewrite Hc. Qed.

Lemma findall_is_tokens_upto (n : nat) :
  forall text, String.length text <= n -> tokens text (findall text).
Proof.
  induction n as [|n IH]; intros [|c s] Hlen; simpl in Hlen; try lia;
    try apply tokens_end.
  destruct (match_here (String c s)) as [m|] eqn:Hm.
  - destruct (match_here_Some _ _ Hm) as (Hw & [rest Hrest] & Hmax).
    rewrite Hrest in Hmax |- *.
    rewrite (findall_longest_match m rest Hw Hmax).
    apply tokens_match.
    + now apply matches_word_pattern.
    + intros m' rest' Heq Hm'. apply (Hmax m' rest' Heq).
      now apply matches_word_pattern.
    + apply IH. destruct m as [|c' t]; [discriminate |].
      apply (f_equal String.length) in Hrest. rewrite length_append in Hrest.
      simpl in Hrest. lia.
  - assert (Hc : is_word c = false).
    { simpl in Hm. destruct (is_word c); [discriminate | reflexivity]. }
    rewrite (findall_no_match _ _ Hc). apply tokens_skip.
    + intros m rest Heq Hmatch. apply matches_word_pattern in Hmatch.
      rewrite (match_here_None _ Hm m rest Heq) in Hmatch. discriminate.
    + apply IH. lia.
Qed.

(** [findall] returns tokens of the pattern ... *)
Lemma findall_is_tokens (text : string) : tokens text (findall text).
Proof. now apply (findall_is_tokens_upto (String.length text)). Qed.

(** ... and the tokens of a text are determined. *)
Lemma tokens_is_findall (text : string) (ms : list string) :
  tokens text ms -> ms = findall text.
Proof.
  induction 1 as [|c s ms Hno _ IH|m rest ms Hm Hmax _ IH].
  - reflexivity.
  - destruct (is_word c) eqn:Hc.
    + exfalso. apply (Hno (String c "") s); [reflexivity |].
      apply matches_word_pattern. simpl. now rewrite Hc.
    + now rewrite (findall_no_match _ _ Hc).
  - apply matches_word_pattern in Hm.
    rewrite (findall_longest_match m rest Hm).
    + now rewrite IH.
    + intros m' rest' Heq Hw. apply (Hmax m' rest' Heq).
      now apply matches_word_pattern.
Qed.

Lemma findall_wordlike (text : string) :
  Forall (fun m => wordlike m = true) (findall text).
Proof.
  generalize (findall_is_tokens text). generalize (findall text).
  intros ms Htok. induction Htok; [constructor | assumption |].
  constructor; [now apply matches_word_pattern | assumption].
Qed.

End FindallFacts.

(** ** [preprocess_text] *)

Section PreprocessFacts.

Import Text Pattern.

Lemma preprocess_text_normal_words (text : string) :
  preprocess_text text = join_space (map lower (normal_words text)).
Proof. unfold preprocess_text, normal_words. apply lower_join_space. Qed.

Lemma strip_possessive_wordlike (word : string) :
  wordlike word = true -> wordlike (strip_possessive word) = true.
Proof.
  intros Hw.
  destruct (strip_possessive_spec word) as [(stem & x & Hword & _ & ->) | [_ ->]];
    [|exact Hw].
  subst word. apply (wordlike_prefix _ _ Hw).
  intros ->. discriminate Hw.
Qed.

Lemma normal_words_wordlike (text : string) :
  Forall (fun w => wordlike w = true /\ isdigit w = false) (normal_words text).
Proof.
  unfold normal_words. apply List.Forall_forall. intros w Hin.
  apply filter_In in Hin as [Hin Hnd]. apply negb_true_iff in Hnd.
  split; [|exact Hnd].
  apply in_map_iff in Hin as (w0 & <- & Hin0).
  apply strip_possessive_wordlike.
  pose proof (findall_wordlike text) as Hall.
  rewrite List.Forall_forall in Hall. now apply Hall.
Qed.

(** A run of characters of a class ends where the class ends. *)
Lemma class_run_bounded (p : ascii -> bool) (a rest m' rest' : string) :
  a +:+ rest = m' +:+ rest' ->
  all_chars p m' = true ->
  match rest with EmptyString => True | String c _ => p c = false end ->
  String.length m' <= String.length a.
Proof.
  revert m'. induction a as [|c a IH]; intros [|c' m'] Heq Hall Hrest;
    simpl in *; try lia.
  - destruct rest as [|d rest]; [discriminate |].
    injection Heq as <- _. apply andb_true_iff in Hall as [Hd _]. congruence.
  - injection Heq as <- Heq. apply andb_true_iff in Hall as [_ Hall].
    specialize (IH m' Heq Hall Hrest). lia.
Qed.

Lemma wordlike_all_chars (m : string) :
  wordlike m = true -> all_chars is_word_or_quote m = true.
Proof.
  destruct m as [|c m]; [discriminate |]. simpl. intros Hw.
  apply andb_true_iff in Hw as [Hc ->]. now rewrite (is_word_is_word_or_quote _ Hc).
Qed.

(** The scan gives back the words of a text made of words joined by spaces. *)
Lemma findall_join_space (words : list string) :
  Forall (fun w => wordlike w = true) words ->
  findall (join_space words) = words.
Proof.
  induction 1 as [|x words Hx Hwords IH]; [reflexivity |].
  destruct words as [|y words].
  - change (join_space [x]) with x. rewrite <- (append_empty_r x) at 1.
    rewrite findall_longest_match; [reflexivity | exact Hx |].
    intros m' rest' Heq Hm'.
    apply (class_run_bounded is_word_or_quote x "" m' rest' Heq);
      [now apply wordlike_all_chars | exact I].
  - rewrite join_space_cons. rewrite findall_longest_match; [| exact Hx |].
    + f_equal. change (" " +:+ join_space (y :: words))
        with (String " " (join_space (y :: words))).
      rewrite findall_no_match by reflexivity. exact IH.
    + intros m' rest' Heq Hm'.
      apply (class_run_bounded is_word_or_quote x _ m' rest' Heq);
        [now apply wordlike_all_chars | reflexivity].
Qed.

Lemma wordlike_spaceless (m : string) : wordlike m = true -> spaceless m = true.
Proof.
  intros Hw. apply wordlike_all_chars in Hw. unfold spaceless.
  induction m as [|c m IH]; simpl in *; [reflexivity |].
  apply andb_true_iff in Hw as [Hc Hm]. rewrite (IH Hm), andb_true_r.
  destruct (is_code 32 c) eqn:Hsp; [|reflexivity].
  rewrite (space_not_word_or_quote _ Hsp) in Hc. discriminate.
Qed.

Lemma split_space_spaceless (t : string) :
  spaceless t = true -> split_space t = [t].
Proof.
  unfold spaceless. induction t as [|c t IH]; simpl; [reflexivity |].
  intros Hall. apply andb_true_iff in Hall as [Hc Ht].
  apply negb_true_iff in Hc. rewrite Hc, (IH Ht). reflexivity.
Qed.

Lemma split_space_append (t rest : string) :
  spaceless t = true ->
  split_space (t +:+ String " " rest) = t :: split_space rest.
Proof.
  unfold spaceless. induction t as [|c t IH]; simpl; [reflexivity |].
  intros Hall. apply andb_true_iff in Hall as [Hc Ht].
  apply negb_true_iff in Hc. rewrite Hc, (IH Ht). reflexivity.
Qed.

(** [split(' ')] undoes [' '.join] on a non-empty list of spaceless words. *)
Lemma split_space_join_space (words : list string) :
  words <> [] ->
  Forall (fun w => spaceless w = true) words ->
  split_space (join_space words) = words.
Proof.
  intros Hne Hall. induction Hall as [|x words Hx Hwords IH]; [congruence |].
  destruct words as [|y words].
  - now apply split_space_spaceless.
  - rewrite join_space_cons.
    change (x +:+ " " +:+ join_space (y :: words))
      with (x +:+ String " " (join_space (y :: words))).
    rewrite (split_space_append _ _ Hx). f_equal. now apply IH.
Qed.

(** The words that [generateTwoGroupWordCloud] counts: the lower-cased
    normal words, or one empty word when there is none. *)
Lemma split_space_preprocess_text (text : string) :
  split_space (preprocess_text text) =
  match normal_words text with
  | [] => [""]
  | _ :: _ => map lower (normal_words text)
  end.
Proof.
  rewrite preprocess_text_normal_words.
  destruct (normal_words text) as [|w ws] eqn:Hnw; [reflexivity |].
  apply split_space_join_space; [discriminate |].
  rewrite <- Hnw. apply List.Forall_forall. intros w' Hin.
  apply in_map_iff in Hin as (w0 & <- & Hin0).
  apply wordlike_spaceless. rewrite wordlike_lower.
  pose proof (normal_words_wordlike text) as Hall.
  rewrite List.Forall_forall in Hall. now apply Hall.
Qed.

Lemma map_id_on {A : Type} (f : A -> A) (l : list A) :
  (forall x, In x l -> f x = x) -> map f l = l.
Proof.
  induction l as [|x l IH]; simpl; intros Hf; [reflexivity |].
  rewrite Hf by now left. rewrite IH; [reflexivity |]. intros y Hy. apply Hf. now right.
Qed.

Lemma filter_all {A : Type} (p : A -> bool) (l : list A) :
  (forall x, In x l -> p x = true) -> List.filter p l = l.
Proof.
  induction l as [|x l IH]; simpl; intros Hp; [reflexivity |].
  rewrite Hp by now left. rewrite IH; [reflexivity |]. intros y Hy. apply Hp. now right.
Qed.

(** The second normalization of a text, from the words of the first. *)
Lemma preprocess_text_twice_words (text : string) :
  preprocess_text (preprocess_text text) =
  join_space (map lower
    (List.filter (fun w => negb (isdigit w))
       (map strip_possessive (map lower (normal_words text))))).
Proof.
  rewrite (preprocess_text_normal_words (preprocess_text text)).
  unfold normal_words at 1. rewrite (preprocess_text_normal_words text).
  rewrite findall_join_space; [reflexivity |].
  apply List.Forall_forall. intros w' Hin.
  apply in_map_iff in Hin as (w0 & <- & Hin0). rewrite wordlike_lower.
  pose proof (normal_words_wordlike text) as Hall.
  rewrite List.Forall_forall in Hall. now apply Hall.
Qed.

End PreprocessFacts.

(** ** Normalizing a normalized text *)

Section Idempotence.

Import Text Pattern.

Lemma length_join_space (words : list string) :
  String.length (join_space words) = (weight words - 1)%nat.
Proof.
  induction words as [|x words IH]; [reflexivity |].
  destruct words as [|y words].
  - change (join_space [x]) with x. unfold weight. simpl. lia.
  - rewrite join_space_cons, !length_append, IH. unfold weight. simpl. lia.
Qed.

Lemma weight_map_lower (words : list string) :
  weight (map lower words) = weight words.
Proof.
  unfold weight. induction words as [|x words IH]; simpl; [reflexivity |].
  rewrite length_lower. simpl in IH. lia.
Qed.

Lemma weight_filter (p : string -> bool) (words : list string) :
  weight (List.filter p words) <= weight words.
Proof.
  unfold weight. induction words as [|x words IH]; simpl; [lia |].
  destruct (p x); simpl; lia.
Qed.

Lemma length_strip_possessive (word : string) :
  String.length (strip_possessive word) <= String.length word
  /\ (endswith (lower word) "'s" = true ->
      String.length (strip_possessive word) + 2 = String.length word).
Proof.
  destruct (strip_possessive_spec word) as [(stem & x & -> & _ & ->) | [He ->]].
  - rewrite length_append. simpl. lia.
  - split; [lia | congruence].
Qed.

Lemma weight_map_strip (words : list string) :
  weight (map strip_possessive words) <= weight words
  /\ ((exists w, In w words /\ endswith (lower w) "'s" = true) ->
      weight (map strip_possessive words) + 2 <= weight words).
Proof.
  unfold weight. induction words as [|x words [IHle IHlt]]; simpl.
  - split; [lia | intros (w & [] & _)].
  - destruct (length_strip_possessive x) as [Hle Hlt]. split; [lia |].
    intros (w & [<- | Hin] & He).
    + specialize (Hlt He). lia.
    + assert (list_sum (map (fun w => S (String.length w)) (map strip_possessive words)) + 2
              <= list_sum (map (fun w => S (String.length w)) words)) by eauto.
      lia.
Qed.

(** The words of a normalized text are in lower case and not all digits. *)
Lemma lower_normal_words (text : string) (w : string) :
  In w (map lower (normal_words text)) ->
  lower w = w /\ isdigit w = false /\ wordlike w = true.
Proof.
  intros Hin. apply in_map_iff in Hin as (w0 & <- & Hin0).
  pose proof (normal_words_wordlike text) as Hall.
  rewrite List.Forall_forall in Hall. destruct (Hall w0 Hin0) as [Hw Hd].
  now rewrite lower_idempotent, isdigit_lower, wordlike_lower.
Qed.

(** On texts over the code points 0..255, a second normalization changes a
    normalized text exactly when one of its words still ends in ['s]. *)
Lemma preprocess_text_fixed_iff (text : string) :
  preprocess_text (preprocess_text text) = preprocess_text text <->
  forall w, In w (map lower (normal_words text)) -> endswith w "'s" = false.
Proof.
  rewrite preprocess_text_twice_words, (preprocess_text_normal_words text).
  set (L := map lower (normal_words text)).
  pose proof (lower_normal_words text) as HL. fold L in HL.
  split.
  - intros Heq w Hin. destruct (endswith w "'s") eqn:He; [exfalso | reflexivity].
    apply (f_equal String.length) in Heq. rewrite !length_join_space in Heq.
    rewrite weight_map_lower in Heq.
    pose proof (weight_filter (fun w => negb (isdigit w)) (map strip_possessive L)).
    destruct (weight_map_strip L) as [_ Hstrict].
    assert (Hlt : weight (map strip_possessive L) + 2 <= weight L).
    { apply Hstrict. exists w. split; [exact Hin |].
      destruct (HL w Hin) as [-> _]. exact He. }
    lia.
  - intros Hno.
    assert (Hstrip : map strip_possessive L = L).
    { apply map_id_on. intros w Hin. unfold strip_possessive.
      destruct (HL w Hin) as [-> _]. now rewrite (Hno w Hin). }
    rewrite Hstrip.
    assert (Hfilter : List.filter (fun w => negb (isdigit w)) L = L).
    { apply filter_all. intros w Hin. destruct (HL w Hin) as (_ & -> & _).
      reflexivity. }
    rewrite Hfilter. f_equal. apply map_id_on. intros w Hin.
    now destruct (HL w Hin).
Qed.

End Idempotence.

(** ** The contract of the normalizer *)

Section NormalizerContract.

Import Text Pattern.

(** The string methods of the code are the notions of the contract. *)

Lemma lowercase_char_char_lower (c : ascii) : Contract.lowercase_char c = char_lower c.
Proof. destruct c as [[] [] [] [] [] [] [] []]; reflexivity. Qed.

Lemma lowercased_lower (s : string) : Contract.lowercased s = lower s.
Proof.
  induction s as [|c s IH]; simpl; [reflexivity |].
  now rewrite lowercase_char_char_lower, IH.
Qed.

Lemma joined_join_space (words : list string) : Contract.joined words = join_space words.
Proof.
  induction words as [|x words IH]; [reflexivity |].
  destruct words as [|y words]; [reflexivity |].
  rewrite join_space_cons. cbn [Contract.joined]. cbn [Contract.joined] in IH.
  rewrite IH. reflexivity.
Qed.

Lemma is_digit_char_isdigit (c : ascii) : Contract.is_digit c = char_isdigit c.
Proof. destruct c as [[] [] [] [] [] [] [] []]; reflexivity. Qed.

Lemma all_digits_isdigit (word : string) : Contract.all_digits word = isdigit word.
Proof.
  assert (Hall : forall s,
            forallb Contract.is_digit (list_ascii_of_string s)
            = all_chars char_isdigit s).
  { induction s as [|c s IH]; [reflexivity |].
    cbn [list_ascii_of_string forallb all_chars].
    now rewrite is_digit_char_isdigit, IH. }
  destruct word as [|c word]; [reflexivity |].
  exact (Hall (String c word)).
Qed.

Lemma char_lower_s (x : ascii) :
  char_lower x = "s"%char <-> x = "s"%char \/ x = "S"%char.
Proof.
  split.
  - destruct x as [[] [] [] [] [] [] [] []]; intros Hx;
      (discriminate Hx || (left; reflexivity) || (right; reflexivity)).
  - intros [-> | ->]; reflexivity.
Qed.

Lemma strip_possessive_without (word : string) :
  Contract.without_possessive word (strip_possessive word).
Proof.
  destruct (strip_possessive_spec word) as [(stem & x & -> & Hx & ->) | [He ->]].
  - constructor. now apply char_lower_s.
  - apply Contract.possessive_absent. intros stem x Hword.
    assert (Hx : char_lower x <> "s"%char).
    { intros Hx.
      assert (Hends : endswith (lower word) "'s" = true)
        by (apply endswith_lower_possessive; eauto).
      congruence. }
    split; intros ->; apply Hx; reflexivity.
Qed.

Lemma without_possessive_strip (word word' : string) :
  Contract.without_possessive word word' -> word' = strip_possessive word.
Proof.
  intros [stem x Hx | w Hno].
  - apply char_lower_s in Hx. unfold strip_possessive.
    assert (Hends : endswith (lower (stem +:+ String "'" (String x ""))) "'s" = true)
      by (apply endswith_lower_possessive; eauto).
    now rewrite Hends, drop_last2_append.
  - destruct (strip_possessive_spec w) as [(stem & x & -> & Hx & _) | [_ ->]];
      [|reflexivity].
    exfalso. apply char_lower_s in Hx.
    destruct (Hno stem x eq_refl) as [Hs HS]. destruct Hx; contradiction.
Qed.

(** C6: the normalized text is made from the tokens of the pattern
    [\w[\w']*] in the text (texts over the code points 0..255): each token
    loses its trailing ['s], the tokens that are then made of digits only
    are left out, and what remains is put in a row with one space between
    two neighbours and then in lower case.  ["dog's"] gives ["dog"],
    ["42 cats"] gives ["cats"], and a text with capitals, a possessive, a
    number and punctuation gives its words in lower case, one space
    apart. *)
Theorem preprocess_text_contract (text : string) :
  (exists ms stripped,
     tokens text ms
     /\ Forall2 Contract.without_possessive ms stripped
     /\ preprocess_text text
        = Contract.lowercased
            (Contract.joined
               (List.filter (fun w => negb (Contract.all_digits w)) stripped)))
  /\ (forall ms stripped,
        tokens text ms -> Forall2 Contract.without_possessive ms stripped ->
        preprocess_text text
        = Contract.lowercased
            (Contract.joined
               (List.filter (fun w => negb (Contract.all_digits w)) stripped)))
  /\ preprocess_text "dog's" = "dog"
  /\ preprocess_text "42 cats" = "cats"
  /\ preprocess_text "The DOG'S Bowl, 42 bones!" = "the dog bowl bones".
Proof.
  assert (Hcode : forall words,
            lower (join_space (List.filter (fun w => negb (isdigit w)) words))
            = Contract.lowercased
                (Contract.joined
                   (List.filter (fun w => negb (Contract.all_digits w)) words))).
  { intros words. rewrite lowercased_lower, joined_join_space. do 2 f_equal.
    apply filter_ext. intros w. now rewrite all_digits_isdigit. }
  split; [|split; [|repeat split; reflexivity]].
  - exists (findall text), (map strip_possessive (findall text)).
    split; [apply findall_is_tokens |]. split; [|apply Hcode].
    induction (findall text) as [|m ms IH]; simpl; constructor; auto.
    apply strip_possessive_without.
  - intros ms stripped Htok Hstrip.
    apply tokens_is_findall in Htok. subst ms.
    assert (Hs : stripped = map strip_possessive (findall text)).
    { induction Hstrip as [|m w ms ws Hmw _ IH]; simpl; [reflexivity |].
      now rewrite (without_possessive_strip _ _ Hmw), IH. }
    rewrite Hs. apply Hcode.
Qed.

(** The notions of the contract tell a word from another: the letters of a
    word in lower case, the space between two words, the digits. *)
Example contract_notions :
  Contract.lowercased "The DOG'S Bowl" = "the dog's bowl"
  /\ Contract.joined ["the"; "dog"; "bowl"] = "the dog bowl"
  /\ Contract.all_digits "42" = true
  /\ Contract.all_digits "7up" = false
  /\ Contract.all_digits "" = false.
Proof. vm_compute. repeat split; reflexivity. Qed.

End NormalizerContract.

(** ** A doubled possessive *)

Section DoubledPossessive.

Import Text Pattern.

(** C5: the normalizer is not idempotent on ["dog's's"].  Only one ['s] is
    stripped, so the normalized text ["dog's"] is not normalized: a second
    normalization gives ["dog"].  In [generateTwoGroupWordCloud] the word
    that is scored is ["dog's"]; the text handed to the renderer, once
    normalized again as the docstring of [preprocess_text] says the
    renderer does, has the word ["dog"], for which the colour closure
    raises its lookup exception. *)
Theorem doubled_possessive_is_not_normalized :
  preprocess_text "dog's's" = "dog's"
  /\ preprocess_text (preprocess_text "dog's's") = "dog"
  /\ preprocess_text (preprocess_text "dog's's") <> preprocess_text "dog's's"
  /\ exists wc,
       generateTwoGroupWordCloud (R := float) "dog's's" "cat"
         [0.5%float; 1%float] ["blue"; "red"] = Return wc
       /\ combined_text wc = "dog's cat"
       /\ cloud_word_scores wc !! "dog's" = Some 1%float
       /\ cloud_word_scores wc !! "dog" = None
       /\ preprocess_text (combined_text wc) = "dog cat"
       /\ color_func wc "dog" = Raise (NoScoreCreated "dog").
Proof.
  split; [reflexivity |]. split; [reflexivity |]. split; [discriminate |].
  eexists. split; [vm_compute; reflexivity |]. repeat split.
Qed.

End DoubledPossessive.

(** ** Counting and scoring, for any arithmetic *)

Section ScoringFacts.

Context {R : Type} `{Num R}.

Lemma Counter_foldl_lookup (words : list string) :
  forall (counter : gmap string nat) (word : string),
    foldl (fun counter word => <[word := S (default 0%nat (counter !! word))]> counter)
          counter words !! word
    = match occurrences word words with
      | O => counter !! word
      | S k => Some (default 0%nat (counter !! word) + S k)%nat
      end.
Proof.
  unfold occurrences.
  induction words as [|x words IH]; intros counter word; simpl; [reflexivity |].
  rewrite IH. destruct (string_dec x word) as [->|Hne].
  - rewrite lookup_insert_eq. simpl.
    destruct (count_occ string_dec words word); f_equal; lia.
  - rewrite lookup_insert_ne by exact Hne. reflexivity.
Qed.

(** [Counter(words)[word]] is the number of occurrences of [word]; a word
    that does not occur has no entry. *)
Lemma Counter_lookup (words : list string) (word : string) :
  Counter words !! word
  = match occurrences word words with
    | O => None
    | S k => Some (S k)
    end.
Proof.
  unfold Counter. rewrite Counter_foldl_lookup, lookup_empty. reflexivity.
Qed.

Lemma occurrences_pos (word : string) (words : list string) :
  word ∈ words <-> (0 < occurrences word words)%nat.
Proof. rewrite list_elem_of_In. apply count_occ_In. Qed.

Lemma occurrences_le_length (word : string) (words : list string) :
  (occurrences word words <= length words)%nat.
Proof. apply count_occ_bound. Qed.

Lemma normalize_nonzero (counter : gmap string nat) (n : nat) :
  n <> 0%nat ->
  normalize counter n = Return ((fun count => num_int_quot count n) <$> counter).
Proof.
  intros Hn. unfold normalize.
  apply (map_fold_weak_ind
           (fun r m => r = Return ((fun count => num_int_quot count n) <$> m))).
  - now rewrite fmap_empty.
  - intros word count m r _ ->. simpl.
    destruct n as [|n]; [congruence |]. simpl.
    now rewrite fmap_insert.
Qed.

(** The normalization of a counter by the length of its list never
    divides by zero: an empty list has an empty counter. *)
Lemma normalize_Counter (words : list string) :
  normalize (Counter words) (length words)
  = Return ((fun count => num_int_quot count (length words)) <$> Counter words).
Proof.
  destruct words as [|w words].
  - unfold normalize, Counter. simpl. rewrite map_fold_empty, fmap_empty. reflexivity.
  - apply normalize_nonzero. discriminate.
Qed.

Lemma getitem_default_frequency (words : list string) (word : string) :
  getitem_default ((fun count => num_int_quot count (length words)) <$> Counter words) word
  = frequency_read words word.
Proof.
  unfold getitem_default, frequency_read.
  rewrite lookup_fmap, Counter_lookup.
  destruct (occurrences word words); reflexivity.
Qed.

(** The loop over the words: it returns the dictionary of the quotients
    when no denominator is zero, and raises [ZeroDivisionError] when one is. *)
Lemma score_loop_spec (freq1 freq2 : gmap string R) (words : gset string) :
  let denominator word :=
    num_add (getitem_default freq1 word) (getitem_default freq2 word) in
  ((forall word, word ∈ words -> num_eqb (denominator word) num_zero = false) ->
   exists word_scores,
     score_loop freq1 freq2 words = Return word_scores
     /\ forall word,
          word_scores !! word
          = if decide (word ∈ words)
            then Some (num_div (getitem_default freq1 word) (denominator word))
            else None)
  /\ ((exists word, word ∈ words /\ num_eqb (denominator word) num_zero = true) ->
      score_loop freq1 freq2 words = Raise ZeroDivisionError).
Proof.
  intros denominator. unfold score_loop.
  set (P := fun (r : result (gmap string R)) (X : gset string) =>
       ((forall word, word ∈ X -> num_eqb (denominator word) num_zero = false) ->
        exists word_scores,
          r = Return word_scores
          /\ forall word,
               word_scores !! word
               = if decide (word ∈ X)
                 then Some (num_div (getitem_default freq1 word) (denominator word))
                 else None)
       /\ ((exists word, word ∈ X /\ num_eqb (denominator word) num_zero = true) ->
           r = Raise ZeroDivisionError)).
  match goal with |- context [set_fold ?f ?b words] =>
    enough (HP : P (set_fold f b words) words) by exact HP;
    apply (set_fold_ind_L P f b); unfold P; clear P
  end.
  - split.
    + intros _. exists ∅. split; [reflexivity |]. intros word.
      rewrite lookup_empty. destruct (decide (word ∈ (∅ : gset string))) as [Hin|_];
        [set_solver | reflexivity].
    + intros (word & Hin & _). set_solver.
  - intros x X r Hx [IHok IHzero]. split.
    + intros Hnz.
      destruct IHok as (ws & -> & Hws); [intros w Hw; apply Hnz; set_solver |].
      simpl. unfold truediv. fold (denominator x).
      rewrite (Hnz x) by set_solver. simpl.
      eexists. split; [reflexivity |]. intros word.
      destruct (decide (x = word)) as [->|Hne].
      * rewrite lookup_insert_eq.
        destruct (decide (word ∈ {[word]} ∪ X)); [reflexivity | set_solver].
      * rewrite lookup_insert_ne by exact Hne. rewrite Hws.
        destruct (decide (word ∈ X)) as [Hin1|Hin1],
                 (decide (word ∈ {[x]} ∪ X)) as [Hin2|Hin2];
          try reflexivity; exfalso.
        -- apply Hin2, elem_of_union. now right.
        -- apply elem_of_union in Hin2 as [Hin2 | Hin2]; [|contradiction].
           apply elem_of_singleton in Hin2. congruence.
    + intros (word & Hin & Hzero).
      destruct (decide (set_Exists
                          (fun w => num_eqb (denominator w) num_zero = true) X))
        as [HX | HX]; unfold set_Exists in HX.
      * rewrite (IHzero HX). reflexivity.
      * assert (Hxw : word = x).
        { apply elem_of_union in Hin as [Hin | Hin]; [set_solver |].
          exfalso. apply HX. eauto. }
        subst word.
        destruct IHok as (ws & -> & _).
        { intros w Hw. destruct (num_eqb (denominator w) num_zero) eqn:Hd;
            [|reflexivity]. exfalso. apply HX. eauto. }
        simpl. unfold truediv. fold (denominator x). rewrite Hzero. reflexivity.
Qed.

(** Lines 101-117 on two lists of words. *)
Lemma compute_word_scores_spec (group_1_words group_2_words : list string) :
  let f1 := frequency_read group_1_words in
  let f2 := frequency_read group_2_words in
  ((forall word, word ∈ group_1_words \/ word ∈ group_2_words ->
      num_eqb (num_add (f1 word) (f2 word)) num_zero = false) ->
   exists word_scores,
     compute_word_scores group_1_words group_2_words = Return word_scores
     /\ forall word,
          word_scores !! word
          = if decide (word ∈ group_1_words \/ word ∈ group_2_words)
            then Some (num_div (f1 word) (num_add (f1 word) (f2 word)))
            else None)
  /\ ((exists word, (word ∈ group_1_words \/ word ∈ group_2_words)
         /\ num_eqb (num_add (f1 word) (f2 word)) num_zero = true) ->
      compute_word_scores group_1_words group_2_words = Raise ZeroDivisionError).
Proof.
  intros f1 f2. unfold compute_word_scores.
  rewrite !normalize_Counter. simpl.
  match goal with |- context [score_loop ?a ?b ?c] =>
    destruct (score_loop_spec a b c) as [Hok Hzero] end.
  assert (Hmem : forall word,
    word ∈ (list_to_set group_1_words ∪ list_to_set group_2_words : gset string)
    <-> word ∈ group_1_words \/ word ∈ group_2_words).
  { intros word. rewrite elem_of_union, !elem_of_list_to_set. reflexivity. }
  split.
  - intros Hnz. destruct Hok as (ws & Hws & Hlookup).
    { intros word Hin. rewrite !getitem_default_frequency. apply Hnz, Hmem, Hin. }
    exists ws. split; [exact Hws |]. intros word. rewrite Hlookup.
    rewrite !getitem_default_frequency.
    destruct (decide (word ∈ _ ∪ _)) as [Hin|Hin],
             (decide (word ∈ group_1_words \/ word ∈ group_2_words)) as [Hin'|Hin'];
      try reflexivity; exfalso; [apply Hin', Hmem, Hin | apply Hin, Hmem, Hin'].
  - intros (word & Hin & Hz). apply Hzero. exists word.
    rewrite !getitem_default_frequency. split; [apply Hmem, Hin | exact Hz].
Qed.

End ScoringFacts.

(** ** Rounding in binary64 *)

(** The sum and the quotient of two positive normal numbers, from the
    definitions of [SpecFloat], which the operations on [float] are
    specified by. *)

Section Binary64.

Local Open Scope Z_scope.

Lemma pow2_succ (k : Z) : 0 <= k -> 2 ^ (k + 1) = 2 * 2 ^ k.
Proof. intros. now rewrite Z.add_1_r, Z.pow_succ_r. Qed.

Lemma digits2_pos_bounds (m : positive) :
  2 ^ (Zpos (digits2_pos m) - 1) <= Zpos m < 2 ^ Zpos (digits2_pos m).
Proof.
  induction m as [p IH | p IH |]; simpl digits2_pos.
  - rewrite Pos2Z.inj_succ, Pos2Z.inj_xI.
    set (d := Zpos (digits2_pos p)) in *. assert (0 < d) by (subst d; lia).
    assert (E1 : 2 ^ (Z.succ d - 1) = 2 * 2 ^ (d - 1))
      by (rewrite <- pow2_succ by lia; f_equal; lia).
    assert (E2 : 2 ^ Z.succ d = 2 * 2 ^ d) by (apply Z.pow_succ_r; lia).
    rewrite E1, E2. lia.
  - rewrite Pos2Z.inj_succ. change (Z.pos p~0) with (2 * Z.pos p).
    set (d := Zpos (digits2_pos p)) in *. assert (0 < d) by (subst d; lia).
    assert (E1 : 2 ^ (Z.succ d - 1) = 2 * 2 ^ (d - 1))
      by (rewrite <- pow2_succ by lia; f_equal; lia).
    assert (E2 : 2 ^ Z.succ d = 2 * 2 ^ d) by (apply Z.pow_succ_r; lia).
    rewrite E1, E2. lia.
  - simpl. lia.
Qed.

Lemma digits2_pos_unique (m : positive) (k : Z) :
  2 ^ (k - 1) <= Zpos m < 2 ^ k -> Zpos (digits2_pos m) = k.
Proof.
  intros [Hlo Hhi]. pose proof (digits2_pos_bounds m) as [Hlo' Hhi'].
  set (d := Zpos (digits2_pos m)) in *.
  assert (0 < d) by (subst d; lia).
  destruct (Z_lt_le_dec k 1) as [Hk | Hk].
  { assert (2 ^ k <= 1).
    { destruct (Z_lt_le_dec k 0); [rewrite Z.pow_neg_r by lia; lia |].
      replace k with 0 by lia. simpl. lia. }
    lia. }
  destruct (Z.lt_trichotomy d k) as [Hlt | [Heq | Hgt]]; [exfalso | exact Heq | exfalso].
  - assert (2 ^ d <= 2 ^ (k - 1)) by (apply Z.pow_le_mono_r; lia). lia.
  - assert (2 ^ k <= 2 ^ (d - 1)) by (apply Z.pow_le_mono_r; lia). lia.
Qed.

(** *** Shifting and rounding a mantissa *)

Lemma shr_1_m (mrs : shr_record) :
  0 <= shr_m mrs -> shr_m (shr_1 mrs) = shr_m mrs / 2.
Proof.
  destruct mrs as [m r s]. simpl. intros Hm.
  rewrite <- Z.div2_div. destruct m as [|[p|p|]|]; try reflexivity; lia.
Qed.

Lemma iter_shr_1_m (p : positive) :
  forall mrs, 0 <= shr_m mrs ->
    shr_m (SpecFloat.iter_pos shr_1 p mrs) = shr_m mrs / 2 ^ Zpos p.
Proof.
  assert (Hdiv : forall a b, 0 <= a -> 0 < b -> 0 <= a / b)
    by (intros; apply Z.div_pos; lia).
  induction p as [p IH | p IH |]; intros mrs Hm; simpl SpecFloat.iter_pos.
  - assert (Hp : 0 < 2 ^ Zpos p) by (apply Z.pow_pos_nonneg; lia).
    rewrite IH, IH, shr_1_m by
      (rewrite ?IH, ?shr_1_m by (rewrite ?shr_1_m by lia; auto with zarith);
       auto with zarith).
    rewrite !Z.div_div by lia.
    f_equal. rewrite Pos2Z.inj_xI, Z.pow_add_r, Z.pow_mul_r by lia.
    change (2 ^ 2) with 4. change (2 ^ 1) with 2.
    replace (4 ^ Zpos p) with (2 ^ Zpos p * 2 ^ Zpos p); [lia |].
    rewrite <- Z.pow_mul_l. reflexivity.
  - assert (Hp : 0 < 2 ^ Zpos p) by (apply Z.pow_pos_nonneg; lia).
    rewrite IH, IH by (rewrite ?IH by lia; auto with zarith).
    rewrite !Z.div_div by lia.
    f_equal. change (Zpos p~0) with (2 * Zpos p). rewrite Z.pow_mul_r by lia.
    change (2 ^ 2) with 4.
    replace (4 ^ Zpos p) with (2 ^ Zpos p * 2 ^ Zpos p); [lia |].
    rewrite <- Z.pow_mul_l. reflexivity.
  - rewrite shr_1_m by lia. reflexivity.
Qed.

Lemma shr_record_of_loc_m (m : Z) (l : location) : shr_m (shr_record_of_loc m l) = m.
Proof. destruct l as [|[]]; reflexivity. Qed.

Lemma round_nearest_even_cases (m : Z) (l : location) :
  round_nearest_even m l = m \/ round_nearest_even m l = m + 1.
Proof. destruct l as [|[]]; simpl; auto. destruct (Z.even m); auto. Qed.

(** The shift of a mantissa of at least 53 digits, in the normal range. *)
Lemma shr_fexp_normal (m : positive) (e : Z) (l : location) :
  let d := Zpos (digits2_pos m) in
  53 <= d -> -1074 <= e + (d - 53) ->
  exists mrs,
    shr_fexp prec emax (Zpos m) e l = (mrs, e + (d - 53))
    /\ shr_m mrs = Zpos m / 2 ^ (d - 53).
Proof.
  intros d Hd He. unfold shr_fexp, fexp. simpl Zdigits2. fold d.
  change (SpecFloat.emin prec emax) with (-1074). change prec with 53.
  rewrite Z.max_l by lia.
  replace (d + e - 53 - e) with (d - 53) by lia.
  destruct (d - 53) as [|p|p] eqn:Hn; try lia.
  - unfold shr. eexists. split; [rewrite Z.add_0_r; reflexivity |].
    rewrite shr_record_of_loc_m. simpl. now rewrite Z.div_1_r.
  - unfold shr. eexists. split; [reflexivity |].
    rewrite iter_shr_1_m by (rewrite shr_record_of_loc_m; lia).
    now rewrite shr_record_of_loc_m.
Qed.

Lemma truncated_53 (m : positive) :
  let d := Zpos (digits2_pos m) in
  53 <= d ->
  2 ^ 52 <= Zpos m / 2 ^ (d - 53) < 2 ^ 53.
Proof.
  intros d Hd. pose proof (digits2_pos_bounds m) as [Hlo Hhi]. fold d in Hlo, Hhi.
  assert (HN : 0 < 2 ^ (d - 53)) by (apply Z.pow_pos_nonneg; lia).
  replace (d - 1) with (52 + (d - 53)) in Hlo by lia.
  replace d with (53 + (d - 53)) in Hhi at 1 by lia.
  rewrite Z.pow_add_r in Hlo, Hhi by lia.
  split.
  - apply Z.div_le_lower_bound; lia.
  - apply Z.div_lt_upper_bound; lia.
Qed.

(** Rounding a positive mantissa of at least 53 digits, in the normal range:
    the result is a normal number whose mantissa is the truncated mantissa
    or the next integer. *)
Lemma binary_round_aux_normal (s : bool) (m : positive) (e : Z) (l : location) :
  let d := Zpos (digits2_pos m) in
  let t := Zpos m / 2 ^ (d - 53) in
  let E := e + (d - 53) in
  53 <= d -> -1074 <= E -> E + 1 <= 971 ->
  exists m' e',
    binary_round_aux prec emax s (Zpos m) e l = S754_finite s m' e'
    /\ Zpos (digits2_pos m') = 53
    /\ ((e' = E /\ (Zpos m' = t \/ Zpos m' = t + 1))
        \/ (e' = E + 1 /\ Zpos m' = 2 ^ 52 /\ t + 1 = 2 ^ 53)).
Proof.
  intros d t E Hd HE HE'.
  destruct (shr_fexp_normal m e l Hd HE) as (mrs & Hshr & Hm). fold d E t in Hshr, Hm.
  pose proof (truncated_53 m Hd) as Ht. fold d t in Ht.
  unfold binary_round_aux. rewrite Hshr, Hm.
  destruct (round_nearest_even_cases t (loc_of_shr_record mrs)) as [Hr | Hr];
    rewrite Hr.
  - (* the truncated mantissa *)
    destruct t as [|tp|tp] eqn:Htp; try lia.
    assert (Hdt : Zpos (digits2_pos tp) = 53) by (apply digits2_pos_unique; lia).
    destruct (shr_fexp_normal tp E loc_Exact) as (mrs2 & Hshr2 & Hm2);
      rewrite ?Hdt; try lia.
    rewrite Hdt in Hshr2, Hm2. rewrite Z.sub_diag, Z.add_0_r in Hshr2.
    change (2 ^ (53 - 53)) with 1 in Hm2. rewrite Z.div_1_r in Hm2.
    rewrite Hshr2, Hm2.
    change (emax - prec) with 971.
    replace (E <=? 971) with true by (symmetry; apply Z.leb_le; lia).
    exists tp, E. split; [reflexivity |]. split; [exact Hdt |]. left. auto.
  - (* the next integer *)
    destruct (t + 1) as [|tp|tp] eqn:Htp; try lia.
    destruct (Z_lt_le_dec (Zpos tp) (2 ^ 53)) as [Hlt | Hge].
    + assert (Hdt : Zpos (digits2_pos tp) = 53) by (apply digits2_pos_unique; lia).
      destruct (shr_fexp_normal tp E loc_Exact) as (mrs2 & Hshr2 & Hm2);
        rewrite ?Hdt; try lia.
      rewrite Hdt in Hshr2, Hm2. rewrite Z.sub_diag, Z.add_0_r in Hshr2.
      change (2 ^ (53 - 53)) with 1 in Hm2. rewrite Z.div_1_r in Hm2.
      rewrite Hshr2, Hm2.
      change (emax - prec) with 971.
      replace (E <=? 971) with true by (symmetry; apply Z.leb_le; lia).
      exists tp, E. split; [reflexivity |]. split; [exact Hdt |]. left. split; [reflexivity|]. right. lia.
    + assert (Heq : Zpos tp = 2 ^ 53) by lia.
      assert (Hdt : Zpos (digits2_pos tp) = 54).
      { apply digits2_pos_unique. rewrite Heq. simpl. lia. }
      destruct (shr_fexp_normal tp E loc_Exact) as (mrs2 & Hshr2 & Hm2);
        rewrite ?Hdt; try lia.
      rewrite Hdt in Hshr2, Hm2. rewrite Heq in Hm2.
      change (2 ^ 53 / 2 ^ (54 - 53)) with (2 ^ 52) in Hm2.
      change (54 - 53) with 1 in Hshr2.
      rewrite Hshr2, Hm2.
      change (2 ^ 52) with (Zpos (2 ^ 52)%positive).
      change (emax - prec) with 971.
      replace (E + 1 <=? 971) with true by (symmetry; apply Z.leb_le; lia).
      exists (2 ^ 52)%positive, (E + 1). split; [reflexivity |].
      split; [reflexivity |]. right. split; [reflexivity |]. split; [reflexivity |].
      lia.
Qed.

(** *** Comparisons of positive finite numbers *)

Lemma SFleb_finite_pos (m1 m2 : positive) (e1 e2 : Z) :
  SFleb (S754_finite false m1 e1) (S754_finite false m2 e2) = true
  <-> e1 < e2 \/ (e1 = e2 /\ Zpos m1 <= Zpos m2).
Proof.
  unfold SFleb, SFcompare.
  destruct (Z.compare_spec e1 e2) as [He | He | He].
  - change (Pos.compare_cont Eq m1 m2) with (Pos.compare m1 m2).
    destruct (Pos.compare_spec m1 m2) as [Hm | Hm | Hm]; split; intros Hx;
      try reflexivity; try discriminate; try lia.
  - split; [intros _; lia | reflexivity].
  - split; [discriminate | lia].
Qed.

Lemma pnormal_positive (K : Z) (x : float) :
  pnormal K x ->
  PrimFloat.eqb x 0 = false /\ PrimFloat.ltb 0 x = true /\ PrimFloat.leb 0 x = true.
Proof.
  intros (m & e & Hx & _).
  rewrite FloatAxioms.eqb_spec, FloatAxioms.ltb_spec, FloatAxioms.leb_spec, Hx.
  repeat split.
Qed.

Lemma pnormal_weaken (K K' : Z) (x : float) : K <= K' -> pnormal K x -> pnormal K' x.
Proof. intros HK (m & e & Hx & Hd & He). exists m, e. repeat split; auto; lia. Qed.

(** *** Zero *)

Lemma zero_add (K : Z) (x : float) : pnormal K x -> (0 + x)%float = x /\ (x + 0)%float = x.
Proof.
  intros (m & e & Hx & _). split; apply Prim2SF_inj;
    rewrite FloatAxioms.add_spec, Hx; reflexivity.
Qed.

Lemma zero_div (K : Z) (x : float) : pnormal K x -> (0 / x)%float = 0%float.
Proof.
  intros (m & e & Hx & _). apply Prim2SF_inj.
  rewrite FloatAxioms.div_spec, Hx. reflexivity.
Qed.

(** *** Division *)

Lemma div_eucl_pair (a b : Z) : Z.div_eucl a b = (a / b, a mod b).
Proof. unfold Z.div, Z.modulo. now destruct (Z.div_eucl a b). Qed.

Lemma SFdiv_core_normal (m1 m2 : positive) (e1 e2 : Z) :
  Zpos (digits2_pos m1) = Zpos (digits2_pos m2) ->
  -1074 <= e1 - e2 - 53 ->
  SFdiv_core_binary prec emax (Zpos m1) e1 (Zpos m2) e2
  = (Zpos m1 * 2 ^ 53 / Zpos m2, e1 - e2 - 53,
     new_location (Zpos m2) ((Zpos m1 * 2 ^ 53) mod Zpos m2)).
Proof.
  intros Hd He. unfold SFdiv_core_binary, fexp. simpl Zdigits2. rewrite Hd.
  change (SpecFloat.emin prec emax) with (-1074). change prec with 53.
  replace (Zpos (digits2_pos m2) + e1 - (Zpos (digits2_pos m2) + e2)) with (e1 - e2)
    by lia.
  rewrite Z.max_l by lia. rewrite Z.min_l by lia.
  replace (e1 - e2 - (e1 - e2 - 53)) with 53 by lia.
  cbv zeta. rewrite Z.shiftl_mul_pow2 by lia.
  rewrite div_eucl_pair. reflexivity.
Qed.

Lemma quotient_bounds (m1 m2 : positive) :
  Zpos (digits2_pos m1) = 53 -> Zpos (digits2_pos m2) = 53 ->
  2 ^ 52 <= Zpos m1 * 2 ^ 53 / Zpos m2 < 2 ^ 54.
Proof.
  intros H1 H2.
  pose proof (digits2_pos_bounds m1) as B1. rewrite H1 in B1.
  pose proof (digits2_pos_bounds m2) as B2. rewrite H2 in B2.
  change (53 - 1) with 52 in *.
  change (2 ^ 52) with 4503599627370496 in *.
  change (2 ^ 53) with 9007199254740992 in *.
  change (2 ^ 54) with 18014398509481984.
  split.
  - apply Z.div_le_lower_bound; lia.
  - apply Z.div_lt_upper_bound; lia.
Qed.

(** The quotient of two positive normal numbers is positive and normal, as
    long as the exponents stay away from the limits of the format. *)
Lemma div_pnormal_rep (m1 m2 : positive) (e1 e2 : Z) :
  Zpos (digits2_pos m1) = 53 -> Zpos (digits2_pos m2) = 53 ->
  -1000 <= e1 - e2 <= 900 ->
  exists m e,
    SFdiv prec emax (S754_finite false m1 e1) (S754_finite false m2 e2)
    = S754_finite false m e
    /\ Zpos (digits2_pos m) = 53
    /\ e1 - e2 - 53 <= e <= e1 - e2 - 51
    /\ ((e1 < e2 \/ (e1 = e2 /\ Zpos m1 < Zpos m2)) ->
        e < -52 \/ (e = -52 /\ Zpos m = 2 ^ 52)).
Proof.
  intros H1 H2 He.
  unfold SFdiv. rewrite SFdiv_core_normal by lia.
  pose proof (quotient_bounds m1 m2 H1 H2) as Hq.
  set (q := Zpos m1 * 2 ^ 53 / Zpos m2) in *.
  destruct q as [|qp|qp] eqn:Hqp; try (simpl in Hq; lia).
  set (d := Zpos (digits2_pos qp)).
  assert (Hd : d = 53 \/ d = 54).
  { pose proof (digits2_pos_bounds qp) as Bq. fold d in Bq.
    assert (52 < d).
    { apply (Z.pow_lt_mono_r_iff 2); lia. }
    assert (d - 1 < 54).
    { apply (Z.pow_lt_mono_r_iff 2); lia. }
    lia. }
  destruct (binary_round_aux_normal (xorb false false) qp (e1 - e2 - 53)
              (new_location (Zpos m2) ((Zpos m1 * 2 ^ 53) mod Zpos m2)))
    as (m & e & Hr & Hdm & Hcases); fold d; try lia.
  fold d in Hcases. simpl xorb in Hr.
  exists m, e. split; [exact Hr |]. split; [exact Hdm |]. split; [lia |].
  intros Hle.
  pose proof (digits2_pos_bounds m1) as B1. rewrite H1 in B1.
  pose proof (digits2_pos_bounds m2) as B2. rewrite H2 in B2.
  destruct Hle as [Hlt | [Heq Hm]].
  - (* the exponent of the dividend is smaller *)
    destruct Hcases as [[HeE _] | (HeE & Hm' & _)]; lia.
  - (* same exponent, smaller mantissa *)
    assert (Hq53 : Zpos qp < 2 ^ 53).
    { rewrite <- Hqp. subst q. apply Z.div_lt_upper_bound; [lia |].
      change (2 ^ 53) with 9007199254740992. lia. }
    assert (Hd53 : d = 53).
    { subst d. apply digits2_pos_unique. change (53 - 1) with 52. lia. }
    rewrite Hd53 in Hcases.
    destruct Hcases as [[HeE _] | (HeE & Hm' & _)]; lia.
Qed.

Lemma div_pnormal (K : Z) (x y : float) :
  K <= 400 -> pnormal K x -> pnormal K y -> pnormal (2 * K + 53) (x / y).
Proof.
  intros HK (m1 & e1 & Hx & H1 & He1) (m2 & e2 & Hy & H2 & He2).
  destruct (div_pnormal_rep m1 m2 e1 e2 H1 H2) as (m & e & Hr & Hd & He & _);
    [lia |].
  exists m, e. rewrite FloatAxioms.div_spec, Hx, Hy. unfold SF64div.
  split; [exact Hr |]. split; [exact Hd | lia].
Qed.

Lemma Prim2SF_one : Prim2SF 1 = S754_finite false (2 ^ 52)%positive (-52).
Proof. reflexivity. Qed.

Lemma div_self (K : Z) (x : float) : pnormal K x -> (x / x)%float = 1%float.
Proof.
  intros (m & e & Hx & Hd & He). apply Prim2SF_inj.
  rewrite FloatAxioms.div_spec, Hx. unfold SF64div, SFdiv.
  rewrite SFdiv_core_normal by lia.
  rewrite Z.mul_comm, Z.div_mul, Z.mod_mul by lia.
  replace (e - e - 53) with (-53) by lia.
  replace (new_location (Zpos m) 0) with loc_Exact
    by (unfold new_location, new_location_even, new_location_odd;
        destruct (Z.even (Zpos m)); reflexivity).
  reflexivity.
Qed.

(** A number that is at most another has a quotient of at most 1. *)
Lemma div_le_one (K : Z) (x y : float) :
  K <= 400 -> pnormal K x -> pnormal K y ->
  PrimFloat.leb x y = true -> PrimFloat.leb (x / y) 1 = true.
Proof.
  intros HK Hpx Hpy Hle.
  pose proof Hpx as (m1 & e1 & Hx & H1 & He1).
  pose proof Hpy as (m2 & e2 & Hy & H2 & He2).
  rewrite FloatAxioms.leb_spec, Hx, Hy in Hle. apply SFleb_finite_pos in Hle.
  destruct (Z.eq_dec e1 e2) as [Hee | Hee];
    [destruct (Z.eq_dec (Zpos m1) (Zpos m2)) as [Hmm | Hmm] |].
  - (* the same number *)
    assert (x = y) as ->.
    { apply Prim2SF_inj. rewrite Hx, Hy. injection Hmm as ->. now subst. }
    now rewrite (div_self K y Hpy).
  - destruct (div_pnormal_rep m1 m2 e1 e2 H1 H2) as (m & e & Hr & Hd & He & Hone);
      [lia |].
    rewrite FloatAxioms.leb_spec, FloatAxioms.div_spec, Hx, Hy. unfold SF64div.
    rewrite Hr, Prim2SF_one. apply SFleb_finite_pos.
    destruct Hone as [Hlt | [Heq Hm]]; [lia | lia |].
    right. split; [exact Heq |]. rewrite Hm. reflexivity.
  - destruct (div_pnormal_rep m1 m2 e1 e2 H1 H2) as (m & e & Hr & Hd & He & Hone);
      [lia |].
    rewrite FloatAxioms.leb_spec, FloatAxioms.div_spec, Hx, Hy. unfold SF64div.
    rewrite Hr, Prim2SF_one. apply SFleb_finite_pos.
    destruct Hone as [Hlt | [Heq Hm]]; [lia | lia |].
    right. split; [exact Heq |]. rewrite Hm. reflexivity.
Qed.

(** *** Rounding an integer mantissa *)

Lemma iter_xO (k m : positive) : Zpos (Pos.iter xO m k) = Zpos m * 2 ^ Zpos k.
Proof.
  induction k as [|k IH] using Pos.peano_ind.
  - simpl. lia.
  - rewrite Pos.iter_succ, Pos2Z.inj_succ, Z.pow_succ_r by lia.
    change (Zpos (Pos.iter xO m k)~0) with (2 * Zpos (Pos.iter xO m k)).
    rewrite IH. lia.
Qed.

Lemma shl_align_value (m : positive) (e ez : Z) :
  ez <= e -> Zpos (fst (shl_align m e ez)) = Zpos m * 2 ^ (e - ez).
Proof.
  intros Hle. unfold shl_align.
  destruct (ez - e) as [|k|k] eqn:Hk; try lia.
  - simpl. replace (e - ez) with 0 by lia. simpl. lia.
  - simpl. rewrite iter_xO. f_equal. f_equal. lia.
Qed.

Lemma binary_round_normal (s : bool) (m : positive) (e : Z) :
  53 <= Zpos (digits2_pos m) -> -1074 <= e + (Zpos (digits2_pos m) - 53) ->
  binary_round prec emax s m e = binary_round_aux prec emax s (Zpos m) e loc_Exact.
Proof.
  intros Hd He. unfold binary_round, fexp.
  change (SpecFloat.emin prec emax) with (-1074). change prec with 53.
  rewrite Z.max_l by lia. unfold shl_align.
  destruct (Zpos (digits2_pos m) + e - 53 - e) eqn:Hk; try lia; reflexivity.
Qed.

Lemma binary_round_pos (m : positive) (e : Z) :
  let d := Zpos (digits2_pos m) in
  -1000 <= e + d - 53 <= 900 ->
  exists m' e',
    binary_round prec emax false m e = S754_finite false m' e'
    /\ Zpos (digits2_pos m') = 53
    /\ e + d - 53 <= e' <= e + d - 52.
Proof.
  intros d He.
  destruct (Z_lt_le_dec d 53) as [Hlt | Hge].
  - (* fewer than 53 digits: the mantissa is shifted to the left *)
    unfold binary_round, fexp. fold d.
    change (SpecFloat.emin prec emax) with (-1074). change prec with 53.
    rewrite Z.max_l by lia. unfold shl_align.
    destruct (d + e - 53 - e) as [|k|k] eqn:Hk; try lia.
    set (mz := Pos.iter xO m k).
    assert (Hmz : Zpos mz = Zpos m * 2 ^ (53 - d)).
    { subst mz. rewrite iter_xO. f_equal. f_equal. lia. }
    assert (Hdz : Zpos (digits2_pos mz) = 53).
    { apply digits2_pos_unique. rewrite Hmz.
      pose proof (digits2_pos_bounds m) as [Hlo Hhi]. fold d in Hlo, Hhi.
      assert (HP : 0 < 2 ^ (53 - d)) by (apply Z.pow_pos_nonneg; lia).
      replace (53 - 1) with ((d - 1) + (53 - d)) by lia.
      replace 53 with (d + (53 - d)) at 4 by lia.
      assert (0 < d) by (subst d; lia).
      rewrite !Z.pow_add_r by lia. nia. }
    destruct (binary_round_aux_normal false mz (d + e - 53) loc_Exact)
      as (m' & e' & Hr & Hd' & Hcases); rewrite ?Hdz; try lia.
    rewrite Hdz in Hcases.
    exists m', e'. split; [exact Hr |]. split; [exact Hd' |].
    destruct Hcases as [[He' _] | [He' _]]; lia.
  - rewrite binary_round_normal by (fold d; lia).
    destruct (binary_round_aux_normal false m e loc_Exact)
      as (m' & e' & Hr & Hd' & Hcases); fold d; try lia.
    fold d in Hcases.
    exists m', e'. split; [exact Hr |]. split; [exact Hd' |].
    destruct Hcases as [[He' _] | [He' _]]; lia.
Qed.

(** The conversion of a positive integer below [2^53]. *)
Lemma float_of_nat_pnormal (n : nat) :
  0 < Z.of_nat n < 2 ^ 53 -> pnormal 52 (float_of_nat n).
Proof.
  intros Hn. unfold float_of_nat, pnormal.
  rewrite of_uint63_spec, Uint63.of_Z_spec.
  rewrite Z.mod_small
    by (change Uint63Axioms.wB with (2 ^ 63); change (2 ^ 63) with 9223372036854775808;
        change (2 ^ 53) with 9007199254740992 in Hn; lia).
  destruct (Z.of_nat n) as [|p|p] eqn:Hp; try lia.
  simpl binary_normalize.
  pose proof (digits2_pos_bounds p) as [Hlo Hhi].
  assert (Hd : 0 < Zpos (digits2_pos p) <= 53).
  { split; [lia |].
    assert (Zpos (digits2_pos p) - 1 < 53); [| lia].
    apply (Z.pow_lt_mono_r_iff 2); lia. }
  destruct (binary_round_pos p 0) as (m' & e' & Hr & Hd' & He'); [lia |].
  exists m', e'. split; [exact Hr |]. split; [exact Hd' | lia].
Qed.

Lemma float_of_nat_zero : float_of_nat 0 = 0%float.
Proof. reflexivity. Qed.

(** *** Addition *)

Lemma SFadd_comm_finite (m1 m2 : positive) (e1 e2 : Z) :
  SFadd prec emax (S754_finite false m1 e1) (S754_finite false m2 e2)
  = SFadd prec emax (S754_finite false m2 e2) (S754_finite false m1 e1).
Proof. unfold SFadd. cbv zeta. rewrite Z.add_comm, (Z.min_comm e1 e2). reflexivity. Qed.

Lemma add_pnormal_rep_le (m1 m2 : positive) (e1 e2 : Z) :
  Zpos (digits2_pos m1) = 53 -> Zpos (digits2_pos m2) = 53 ->
  e1 <= e2 -> -1000 <= e1 -> e2 <= 900 ->
  exists m e,
    SFadd prec emax (S754_finite false m1 e1) (S754_finite false m2 e2)
    = S754_finite false m e
    /\ Zpos (digits2_pos m) = 53
    /\ e2 <= e <= e2 + 2
    /\ (e = e1 -> Zpos m1 <= Zpos m)
    /\ (e = e2 -> Zpos m2 <= Zpos m).
Proof.
  intros H1 H2 Hle Hlo Hhi.
  pose proof (digits2_pos_bounds m1) as B1. rewrite H1 in B1.
  pose proof (digits2_pos_bounds m2) as B2. rewrite H2 in B2.
  change (53 - 1) with 52 in *.
  unfold SFadd. cbv zeta. rewrite Z.min_l by lia. simpl cond_Zopp.
  pose proof (shl_align_value m1 e1 e1 (Z.le_refl _)) as V1.
  pose proof (shl_align_value m2 e2 e1 Hle) as V2.
  rewrite Z.sub_diag in V1. change (2 ^ 0) with 1 in V1. rewrite Z.mul_1_r in V1.
  set (P := 2 ^ (e2 - e1)) in *.
  assert (HP : 1 <= P) by (subst P; apply (Z.pow_le_mono_r 2 0); lia).
  set (A1 := fst (shl_align m1 e1 e1)) in *.
  set (A2 := fst (shl_align m2 e2 e1)) in *.
  change (Zpos A1 + Zpos A2) with (Zpos (A1 + A2)).
  simpl binary_normalize.
  assert (HM : Zpos (A1 + A2) = Zpos m1 + Zpos m2 * P) by lia.
  set (M := (A1 + A2)%positive) in *.
  set (d := Zpos (digits2_pos M)).
  pose proof (digits2_pos_bounds M) as BM. fold d in BM.
  assert (Hd : 52 + (e2 - e1) < d <= 54 + (e2 - e1)).
  { split.
    - apply (Z.pow_lt_mono_r_iff 2); [lia | lia |].
      rewrite Z.pow_add_r by lia. fold P.
      change (2 ^ 52) with 4503599627370496 in *. nia.
    - assert (d - 1 < 54 + (e2 - e1)); [| lia].
      apply (Z.pow_lt_mono_r_iff 2); [lia | lia |].
      rewrite Z.pow_add_r by lia. fold P.
      change (2 ^ 54) with 18014398509481984.
      change (2 ^ 53) with 9007199254740992 in *. nia. }
  rewrite binary_round_normal by (fold d; lia).
  destruct (binary_round_aux_normal false M e1 loc_Exact)
    as (m & e & Hr & Hdm & Hcases); fold d; try lia.
  fold d in Hcases.
  exists m, e. split; [exact Hr |]. split; [exact Hdm |].
  assert (Ht : e = e2 -> Zpos m2 <= Zpos m).
  { intros ->.
    destruct Hcases as [[HeE Hm] | (HeE & Hm' & _)]; [| lia].
    assert (Hs : d - 53 = e2 - e1) by lia.
    rewrite Hs in Hm. fold P in Hm.
    assert (Zpos m2 <= Zpos M / P) by (apply Z.div_le_lower_bound; nia).
    lia. }
  split; [destruct Hcases as [[HeE _] | (HeE & _)]; lia |].
  split; [| exact Ht].
  intros ->.
  assert (Hee : e1 = e2) by (destruct Hcases as [[HeE _] | (HeE & _)]; lia).
  destruct Hcases as [[HeE Hm] | (HeE & Hm' & _)]; [| lia].
  assert (Hs : d - 53 = 0) by lia.
  rewrite Hs in Hm. change (2 ^ 0) with 1 in Hm. rewrite Z.div_1_r in Hm.
  nia.
Qed.

Lemma add_pnormal_rep (m1 m2 : positive) (e1 e2 : Z) :
  Zpos (digits2_pos m1) = 53 -> Zpos (digits2_pos m2) = 53 ->
  -1000 <= e1 <= 900 -> -1000 <= e2 <= 900 ->
  exists m e,
    SFadd prec emax (S754_finite false m1 e1) (S754_finite false m2 e2)
    = S754_finite false m e
    /\ Zpos (digits2_pos m) = 53
    /\ Z.max e1 e2 <= e <= Z.max e1 e2 + 2
    /\ (e = e1 -> Zpos m1 <= Zpos m)
    /\ (e = e2 -> Zpos m2 <= Zpos m).
Proof.
  intros H1 H2 He1 He2.
  destruct (Z_le_gt_dec e1 e2) as [Hle | Hgt].
  - destruct (add_pnormal_rep_le m1 m2 e1 e2) as (m & e & Hr & Hd & He & Ha & Hb);
      try lia.
    exists m, e. rewrite Z.max_r by lia. auto.
  - destruct (add_pnormal_rep_le m2 m1 e2 e1) as (m & e & Hr & Hd & He & Ha & Hb);
      try lia.
    exists m, e. rewrite SFadd_comm_finite, Z.max_l by lia. auto.
Qed.

(** The sum of two positive normal numbers is positive and normal, and it is
    at least each of them. *)
Lemma add_pnormal (K : Z) (x y : float) :
  K <= 800 -> pnormal K x -> pnormal K y ->
  pnormal (K + 2) (x + y)
  /\ PrimFloat.leb x (x + y) = true
  /\ PrimFloat.leb y (x + y) = true.
Proof.
  intros HK (m1 & e1 & Hx & H1 & He1) (m2 & e2 & Hy & H2 & He2).
  destruct (add_pnormal_rep m1 m2 e1 e2 H1 H2) as (m & e & Hr & Hd & He & Ha & Hb);
    try lia.
  rewrite !FloatAxioms.leb_spec, FloatAxioms.add_spec, Hx, Hy. unfold SF64add.
  rewrite Hr. split; [| split].
  - exists m, e. rewrite FloatAxioms.add_spec, Hx, Hy.
    split; [exact Hr |]. split; [exact Hd | lia].
  - apply SFleb_finite_pos.
    destruct (Z.eq_dec e e1) as [-> | Hne]; [right; auto | left; lia].
  - apply SFleb_finite_pos.
    destruct (Z.eq_dec e e2) as [-> | Hne]; [right; auto | left; lia].
Qed.

(** *** A number divided by its double *)

Lemma Prim2SF_half : Prim2SF 0.5 = S754_finite false (2 ^ 52)%positive (-53).
Proof. reflexivity. Qed.

Lemma binary_round_aux_double (m : positive) (e : Z) :
  Zpos (digits2_pos m) = 53 -> -1000 <= e <= 900 ->
  binary_round_aux prec emax false (Zpos m~0) e loc_Exact
  = S754_finite false m (e + 1).
Proof.
  intros Hd He.
  assert (Hd2 : Zpos (digits2_pos m~0) = 54).
  { simpl digits2_pos. rewrite Pos2Z.inj_succ, Hd. reflexivity. }
  unfold binary_round_aux.
  assert (Hshr : shr_fexp prec emax (Zpos m~0) e loc_Exact
                 = ({| shr_m := Zpos m; shr_r := false; shr_s := false |}, e + 1)).
  { unfold shr_fexp, fexp. unfold Zdigits2. rewrite Hd2.
    change (SpecFloat.emin prec emax) with (-1074). change prec with 53.
    rewrite Z.max_l by lia.
    replace (54 + e - 53 - e) with 1 by lia.
    reflexivity. }
  rewrite Hshr. simpl shr_m. simpl loc_of_shr_record. simpl round_nearest_even.
  destruct (shr_fexp_normal m (e + 1) loc_Exact) as (mrs2 & Hshr2 & Hm2);
    rewrite ?Hd; try lia.
  rewrite Hd in Hshr2, Hm2. rewrite Z.sub_diag, Z.add_0_r in Hshr2.
  change (2 ^ (53 - 53)) with 1 in Hm2. rewrite Z.div_1_r in Hm2.
  rewrite Hshr2, Hm2.
  change (emax - prec) with 971.
  replace (e + 1 <=? 971) with true by (symmetry; apply Z.leb_le; lia).
  reflexivity.
Qed.

Lemma add_self_rep (m : positive) (e : Z) :
  Zpos (digits2_pos m) = 53 -> -1000 <= e <= 900 ->
  SFadd prec emax (S754_finite false m e) (S754_finite false m e)
  = S754_finite false m (e + 1).
Proof.
  intros Hd He. unfold SFadd. cbv zeta. rewrite Z.min_id.
  assert (Hs : fst (shl_align m e e) = m).
  { unfold shl_align. rewrite Z.sub_diag. reflexivity. }
  rewrite Hs. simpl cond_Zopp.
  change (Zpos m + Zpos m) with (Zpos (m + m)). rewrite Pos.add_diag.
  simpl binary_normalize.
  assert (Hd2 : Zpos (digits2_pos m~0) = 54).
  { simpl digits2_pos. rewrite Pos2Z.inj_succ, Hd. reflexivity. }
  rewrite binary_round_normal by (rewrite Hd2; lia).
  apply binary_round_aux_double; assumption.
Qed.

Lemma div_double (K : Z) (x : float) :
  K <= 800 -> pnormal K x -> (x / (x + x))%float = 0.5%float.
Proof.
  intros HK (m & e & Hx & Hd & He). apply Prim2SF_inj.
  rewrite FloatAxioms.div_spec, FloatAxioms.add_spec, Hx. unfold SF64div, SF64add.
  rewrite add_self_rep by (auto; lia).
  unfold SFdiv. rewrite SFdiv_core_normal by lia.
  rewrite Z.mul_comm, Z.div_mul, Z.mod_mul by lia.
  replace (e - (e + 1) - 53) with (-54) by lia.
  replace (new_location (Zpos m) 0) with loc_Exact
    by (unfold new_location, new_location_even, new_location_odd;
        destruct (Z.even (Zpos m)); reflexivity).
  reflexivity.
Qed.

End Binary64.

(** ** Scores in binary64 *)

(** The lists of words are taken with fewer than [2^53] words: up to there
    the conversion of a count to [float] is exact and [float_of_nat a /
    float_of_nat b] is the correctly rounded quotient that Python's [a / b]
    computes on two [int]s. *)

Section Binary64Scores.

Local Open Scope list_scope.

(** What the loop reads for a word: zero when the word is absent from the
    list, a positive normal number when it occurs. *)
Lemma frequency_read_binary64 (words : list string) (word : string) :
  (Z.of_nat (length words) < 2 ^ 53)%Z ->
  ((word ∉ words) /\ frequency_read (R := float) words word = 0%float)
  \/ (word ∈ words /\ pnormal 157 (frequency_read (R := float) words word)).
Proof.
  intros Hlen. unfold frequency_read.
  pose proof (occurrences_le_length word words) as Hle.
  pose proof (occurrences_pos word words) as Hpos.
  destruct (occurrences word words) as [|k] eqn:Hocc.
  - left. split; [|reflexivity]. rewrite Hpos. lia.
  - right. split; [apply Hpos; lia |].
    simpl num_int_quot. change 157%Z with (2 * 52 + 53)%Z.
    apply div_pnormal; [lia | apply float_of_nat_pnormal; lia ..].
Qed.

(** The denominator and the quotient that the loop computes for a word of
    one of the two lists. *)
Lemma score_binary64 (group_1_words group_2_words : list string) (word : string) :
  (Z.of_nat (length group_1_words) < 2 ^ 53)%Z ->
  (Z.of_nat (length group_2_words) < 2 ^ 53)%Z ->
  word ∈ group_1_words \/ word ∈ group_2_words ->
  let f1 := frequency_read (R := float) group_1_words word in
  let f2 := frequency_read (R := float) group_2_words word in
  PrimFloat.eqb (f1 + f2) 0 = false
  /\ PrimFloat.ltb 0 (f1 + f2) = true
  /\ (word ∈ group_1_words -> PrimFloat.ltb 0 f1 = true)
  /\ (word ∈ group_2_words -> PrimFloat.ltb 0 f2 = true)
  /\ PrimFloat.leb 0 (f1 / (f1 + f2)) = true
  /\ PrimFloat.leb (f1 / (f1 + f2)) 1 = true
  /\ (PrimFloat.ltb 0 (f1 / (f1 + f2)) = true <-> word ∈ group_1_words)
  /\ (word ∉ group_1_words -> (f1 / (f1 + f2))%float = 0%float)
  /\ (word ∉ group_2_words -> (f1 / (f1 + f2))%float = 1%float).
Proof.
  intros H1 H2 Hin. cbv zeta.
  destruct (frequency_read_binary64 group_1_words word H1) as [[Hout1 Hf1] | [Hin1 Hf1]];
    destruct (frequency_read_binary64 group_2_words word H2)
      as [[Hout2 Hf2] | [Hin2 Hf2]].
  - destruct Hin; contradiction.
  - (* a word of group 2 only *)
    rewrite Hf1. destruct (zero_add _ _ Hf2) as [-> _]. rewrite (zero_div _ _ Hf2).
    destruct (pnormal_positive _ _ Hf2) as (He & Hl & _).
    repeat split; auto; try contradiction; discriminate.
  - (* a word of group 1 only *)
    rewrite Hf2. destruct (zero_add _ _ Hf1) as [_ ->]. rewrite (div_self _ _ Hf1).
    destruct (pnormal_positive _ _ Hf1) as (He & Hl & _).
    repeat split; auto; contradiction.
  - (* a word of both groups *)
    destruct (add_pnormal 157 _ _ ltac:(lia) Hf1 Hf2) as (Hd & Hle & _).
    destruct (pnormal_positive _ _ Hd) as (He & Hl & _).
    destruct (pnormal_positive _ _ Hf1) as (_ & Hl1 & _).
    destruct (pnormal_positive _ _ Hf2) as (_ & Hl2 & _).
    assert (Hs : pnormal (2 * 159 + 53)
                   (frequency_read (R := float) group_1_words word
                    / (frequency_read (R := float) group_1_words word
                       + frequency_read (R := float) group_2_words word))).
    { apply div_pnormal; [lia | | exact Hd].
      apply (pnormal_weaken 157); [lia | exact Hf1]. }
    destruct (pnormal_positive _ _ Hs) as (_ & Hls & Hles).
    repeat split; auto; try contradiction.
    apply (div_le_one 159); [lia | | exact Hd | exact Hle].
    apply (pnormal_weaken 157); [lia | exact Hf1].
Qed.

(** Lines 101-117 in binary64: no exception, and the dictionary has the
    quotient [f1 / (f1 + f2)] of each word of the two lists and nothing else. *)
Lemma compute_word_scores_binary64 (group_1_words group_2_words : list string) :
  (Z.of_nat (length group_1_words) < 2 ^ 53)%Z ->
  (Z.of_nat (length group_2_words) < 2 ^ 53)%Z ->
  exists word_scores,
    compute_word_scores (R := float) group_1_words group_2_words = Return word_scores
    /\ forall word,
         word_scores !! word
         = if decide (word ∈ group_1_words \/ word ∈ group_2_words)
           then Some (frequency_read (R := float) group_1_words word
                      / (frequency_read (R := float) group_1_words word
                         + frequency_read (R := float) group_2_words word))%float
           else None.
Proof.
  intros H1 H2.
  destruct (compute_word_scores_spec (R := float) group_1_words group_2_words)
    as [Hok _].
  apply Hok. intros word Hin.
  exact (proj1 (score_binary64 _ _ word H1 H2 Hin)).
Qed.

(** The scores of two small lists, digit for digit. *)
Example binary64_scores_sample :
  (ws ← compute_word_scores (R := float) ["cat"] ["cat"; "cat"; "dog"];
   mret (ws !! "cat"%string, ws !! "dog"%string, ws !! "cow"%string))
  = Return (Some 0x1.3333333333334p-1%float, Some 0%float, None)
  /\ frequency_read (R := float) ["cat"; "cat"; "dog"] "cat" = 0x1.5555555555555p-1%float
  /\ frequency_read (R := float) ["cat"; "cat"; "dog"] "dog" = 0x1.5555555555555p-2%float.
Proof. vm_compute. repeat split; reflexivity. Qed.

End Binary64Scores.

(** ** The scores of two corpora *)

Section ScoreClaims.

Local Open Scope list_scope.




(** C7: on any two lists of tokens (of fewer than [2^53] tokens each),
    neither the normalization of the counters nor the scoring loop raises
    [ZeroDivisionError] in binary64: every word of the union has a
    normalized frequency above zero in each list it occurs in, its
    denominator [f1 + f2] is above zero and not equal to zero, the division
    is carried out, and the word gets a score. *)
Theorem no_division_by_zero (group_1_words group_2_words : list string) :
  (Z.of_nat (length group_1_words) < 2 ^ 53)%Z ->
  (Z.of_nat (length group_2_words) < 2 ^ 53)%Z ->
  exists freq1 freq2 word_scores : gmap string float,
    normalize (Counter group_1_words) (length group_1_words) = Return freq1
    /\ normalize (Counter group_2_words) (length group_2_words) = Return freq2
    /\ compute_word_scores group_1_words group_2_words = Return word_scores
    /\ forall word,
         word ∈ group_1_words \/ word ∈ group_2_words ->
         (word ∈ group_1_words -> PrimFloat.ltb 0 (getitem_default freq1 word) = true)
         /\ (word ∈ group_2_words -> PrimFloat.ltb 0 (getitem_default freq2 word) = true)
         /\ PrimFloat.ltb 0 (getitem_default freq1 word + getitem_default freq2 word) = true
         /\ PrimFloat.eqb (getitem_default freq1 word + getitem_default freq2 word) 0 = false
         /\ truediv (getitem_default freq1 word)
                    (num_add (getitem_default freq1 word) (getitem_default freq2 word))
            = Return (getitem_default freq1 word
                      / (getitem_default freq1 word + getitem_default freq2 word))%float
         /\ is_Some (word_scores !! word).
Proof.
  intros H1 H2.
  destruct (compute_word_scores_binary64 _ _ H1 H2) as (ws & Hws & Hlookup).
  eexists _, _, ws. split; [apply normalize_Counter |].
  split; [apply normalize_Counter |]. split; [exact Hws |].
  intros word Hword. rewrite !getitem_default_frequency.
  destruct (score_binary64 _ _ word H1 H2 Hword)
    as (Hne & Hden & Hpos1 & Hpos2 & _).
  split; [exact Hpos1 |]. split; [exact Hpos2 |]. split; [exact Hden |].
  split; [exact Hne |]. split.
  - unfold truediv. simpl. now rewrite Hne.
  - rewrite Hlookup. destruct (decide _) as [_ | Hout]; [eauto | contradiction].
Qed.

Lemma no_division_by_zero_witness :
  (Z.of_nat (length ["cat"%string]) < 2 ^ 53)%Z
  /\ (Z.of_nat (length ["cat"; "cat"; "dog"]%string) < 2 ^ 53)%Z
  /\ exists word_scores : gmap string float,
       compute_word_scores ["cat"%string] ["cat"; "cat"; "dog"]%string
       = Return word_scores
       /\ is_Some (word_scores !! "dog"%string).
Proof.
  split; [reflexivity |]. split; [reflexivity |].
  destruct (no_division_by_zero ["cat"%string] ["cat"; "cat"; "dog"]%string)
    as (freq1 & freq2 & ws & _ & _ & Hws & Hall); [reflexivity | reflexivity |].
  exists ws. split; [exact Hws |].
  apply (Hall "dog"%string). right. apply list_elem_of_In. simpl. auto.
Defined.

End ScoreClaims.

(** ** Identical corpora and empty groups *)

Section ScoreEdgeCases.

Local Open Scope list_scope.

(** C9: when the two corpora are the same text (of fewer than [2^53]
    words), every token of the shared vocabulary has the binary64 score
    0.5 exactly, and no other word has a score. *)
Theorem identical_corpora_score_half (text : string) :
  (Z.of_nat (length (group_words text)) < 2 ^ 53)%Z ->
  exists word_scores,
    scores_of_texts (R := float) text text = Return word_scores
    /\ (forall word, word ∈ group_words text -> word_scores !! word = Some 0.5%float)
    /\ (forall word, word ∉ group_words text -> word_scores !! word = None).
Proof.
  intros Hlen. unfold scores_of_texts.
  destruct (compute_word_scores_binary64 _ _ Hlen Hlen) as (ws & Hws & Hlookup).
  exists ws. split; [exact Hws |]. split; intros word Hword; rewrite Hlookup.
  - destruct (decide _) as [_ | Hout]; [| tauto].
    destruct (frequency_read_binary64 (group_words text) word Hlen)
      as [[Hout _] | [_ Hf]]; [contradiction |].
    f_equal. apply (div_double 157); [lia | exact Hf].
  - destruct (decide _) as [Hin | _]; [tauto | reflexivity].
Qed.

Lemma identical_corpora_score_half_witness :
  (Z.of_nat (length (group_words "cat cat dog")) < 2 ^ 53)%Z
  /\ group_words "cat cat dog" = ["cat"; "cat"; "dog"]%string
  /\ exists word_scores,
       scores_of_texts (R := float) "cat cat dog" "cat cat dog" = Return word_scores
       /\ word_scores !! "cat"%string = Some 0.5%float
       /\ word_scores !! "dog"%string = Some 0.5%float.
Proof.
  split; [reflexivity |]. split; [reflexivity |].
  destruct (identical_corpora_score_half "cat cat dog") as (ws & Hws & Hin & _);
    [reflexivity |].
  exists ws. split; [exact Hws |].
  split; apply Hin; apply list_elem_of_In; simpl; auto.
Defined.

Lemma group_words_empty (group_text : string) :
  Text.preprocess_text group_text = ""%string -> group_words group_text = [""%string].
Proof. unfold group_words. now intros ->. Qed.

(** The empty word is a word of a group exactly when the text of the group
    is normalized to the empty string. *)
Lemma empty_word_iff (group_text : string) :
  ""%string ∈ group_words group_text <-> Text.preprocess_text group_text = ""%string.
Proof.
  split; [| intros He; rewrite (group_words_empty _ He); apply list_elem_of_here].
  unfold group_words. rewrite split_space_preprocess_text, preprocess_text_normal_words.
  destruct (Pattern.normal_words group_text) as [|w ws] eqn:Hnw; [reflexivity |].
  intros Hin. apply list_elem_of_In in Hin. rewrite <- Hnw in Hin.
  apply lower_normal_words in Hin as (_ & _ & Hw). discriminate Hw.
Qed.

(** C10: when the text of a group is normalized to the empty string, the
    words of that group are the one empty word, its normalized frequency
    there is 1.0, it is in the union vocabulary, the scoring raises nothing
    (the other group having fewer than [2^53] words), and the empty word
    has the score [f1 / (f1 + f2)] like any other word: 0.5 when both
    groups are empty, 1.0 when only group 1 is, 0.0 when only group 2 is. *)
Theorem empty_group_is_scored (group_1_text group_2_text : string) :
  (Z.of_nat (length (group_words group_1_text)) < 2 ^ 53)%Z ->
  (Z.of_nat (length (group_words group_2_text)) < 2 ^ 53)%Z ->
  Text.preprocess_text group_1_text = ""%string
  \/ Text.preprocess_text group_2_text = ""%string ->
  exists word_scores score,
    scores_of_texts (R := float) group_1_text group_2_text = Return word_scores
    /\ (""%string ∈ group_words group_1_text \/ ""%string ∈ group_words group_2_text)
    /\ word_scores !! ""%string = Some score
    /\ score
       = (frequency_read (R := float) (group_words group_1_text) ""
          / (frequency_read (R := float) (group_words group_1_text) ""
             + frequency_read (R := float) (group_words group_2_text) ""))%float
    /\ (Text.preprocess_text group_1_text = ""%string ->
        group_words group_1_text = [""%string]
        /\ frequency_read (R := float) (group_words group_1_text) "" = 1%float)
    /\ (Text.preprocess_text group_2_text = ""%string ->
        group_words group_2_text = [""%string]
        /\ frequency_read (R := float) (group_words group_2_text) "" = 1%float)
    /\ score
       = (if (Text.preprocess_text group_1_text =? "")%string
          then if (Text.preprocess_text group_2_text =? "")%string
               then 0.5%float else 1%float
          else 0%float).
Proof.
  intros H1 H2 Hempty. unfold scores_of_texts.
  destruct (compute_word_scores_binary64 _ _ H1 H2) as (ws & Hws & Hlookup).
  assert (Hunion : ""%string ∈ group_words group_1_text
                   \/ ""%string ∈ group_words group_2_text).
  { destruct Hempty as [He | He]; [left | right]; now apply empty_word_iff. }
  assert (Hone : forall group_text,
            Text.preprocess_text group_text = ""%string ->
            group_words group_text = [""%string]
            /\ frequency_read (R := float) (group_words group_text) "" = 1%float).
  { intros g Hg. rewrite (group_words_empty _ Hg). split; reflexivity. }
  eexists ws, _. split; [exact Hws |]. split; [exact Hunion |].
  split; [rewrite Hlookup; destruct (decide _) as [_ | Hout];
          [reflexivity | contradiction] |].
  split; [reflexivity |]. split; [apply Hone |]. split; [apply Hone |].
  destruct (score_binary64 _ _ ""%string H1 H2 Hunion)
    as (_ & _ & _ & _ & _ & _ & _ & Hzero & Hfull).
  destruct (String.eqb_spec (Text.preprocess_text group_1_text) "") as [He1 | He1];
    [destruct (String.eqb_spec (Text.preprocess_text group_2_text) "") as [He2 | He2] |].
  - destruct (Hone _ He1) as [_ ->]. destruct (Hone _ He2) as [_ ->]. reflexivity.
  - apply Hfull. now rewrite empty_word_iff.
  - apply Hzero. now rewrite empty_word_iff.
Qed.

Lemma empty_group_is_scored_witness :
  (Z.of_nat (length (group_words "42")) < 2 ^ 53)%Z
  /\ (Z.of_nat (length (group_words "world")) < 2 ^ 53)%Z
  /\ (Text.preprocess_text "42" = ""%string \/ Text.preprocess_text "world" = ""%string)
  /\ exists word_scores,
       scores_of_texts (R := float) "42" "world" = Return word_scores
       /\ word_scores !! ""%string = Some 1%float.
Proof.
  split; [reflexivity |]. split; [reflexivity |]. split; [left; reflexivity |].
  destruct (empty_group_is_scored "42" "world")
    as (ws & score & Hws & _ & Hlookup & _ & _ & _ & Hscore);
    [reflexivity | reflexivity | left; reflexivity |].
  exists ws. split; [exact Hws |]. rewrite Hlookup, Hscore. reflexivity.
Defined.

End ScoreEdgeCases.

(** ** Examples of the scoring *)

Section ScoreExamples.

Local Open Scope Q_scope.

(** C4: the example of the specification, in binary64 and in exact
    arithmetic: ["hello"] has the score 1 and the colour ["red"], ["world"]
    has the score 0 and the colour ["blue"]. *)
Theorem hello_world_example :
  (exists wc,
     generateTwoGroupWordCloud (R := float) "hello" "world"
       [0.5%float; 1%float] ["blue"; "red"]%string = Return wc
     /\ cloud_word_scores wc !! "hello"%string = Some 1%float
     /\ color_func wc "hello" = Return "red"%string
     /\ cloud_word_scores wc !! "world"%string = Some 0%float
     /\ color_func wc "world" = Return "blue"%string)
  /\ (exists wc,
        generateTwoGroupWordCloud (R := Q) "hello" "world"
          [1 # 2; 1] ["blue"; "red"]%string = Return wc
        /\ cloud_word_scores wc !! "hello"%string = Some 1
        /\ color_func wc "hello" = Return "red"%string
        /\ cloud_word_scores wc !! "world"%string = Some 0
        /\ color_func wc "world" = Return "blue"%string).
Proof.
  split; (eexists; split; [vm_compute; reflexivity |]); repeat split.
Qed.

Example float_empty_group :
  (ws ← scores_of_texts (R := float) "42" "world";
   mret (ws !! ""%string, ws !! "world"%string, ws !! "42"%string))
  = Return (Some 1%float, Some 0%float, None)
  /\ (ws ← scores_of_texts (R := float) "" "...";
      mret (ws !! ""%string))
     = Return (Some 0.5%float).
Proof. split; vm_compute; reflexivity. Qed.

End ScoreExamples.

(** ** The colour closure on the example table *)

Lemma choose_color_first_threshold_witness :
  validate [0.5%float; 1%float] ["blue"; "red"]%string = Return tt
  /\ (exists c,
        ["blue"; "red"]%string !! 1%nat = Some c
        /\ __create_choose_color_func__
             ({[ "hello"%string := 1%float ]} : gmap string float)
             [0.5%float; 1%float] ["blue"; "red"]%string "hello"
           = Return c)
  /\ __create_choose_color_func__
       ({[ "hello"%string := 1%float ]} : gmap string float)
       [0.5%float; 1%float] ["blue"; "red"]%string "world"
     = Raise (NoScoreCreated "world").
Proof.
  split; [reflexivity |].
  destruct (choose_color_first_threshold
              ({[ "hello"%string := 1%float ]} : gmap string float)
              [0.5%float; 1%float] ["blue"; "red"]%string)
    with (word := "hello"%string) as (_ & Hfirst & _ & _); [reflexivity |].
  destruct (choose_color_first_threshold
              ({[ "hello"%string := 1%float ]} : gmap string float)
              [0.5%float; 1%float] ["blue"; "red"]%string)
    with (word := "world"%string) as (_ & _ & _ & Hnone); [reflexivity |].
  split; [|apply Hnone; reflexivity].
  apply (Hfirst 1%float 1%nat 1%float); try reflexivity.
  intros [|j] t' Hj Hl; [|inversion Hj as [|? Hj']; inversion Hj'].
  injection Hl as <-. reflexivity.
Defined.

Lemma invalid_score_unreachable_witness :
  validate [0.5%float; 1%float] ["blue"; "red"]%string = Return tt
  /\ ({[ "hello"%string := 1%float ]} : gmap string float) !! "hello"%string = Some 1%float
  /\ num_leb 1%float num_one = true
  /\ __create_choose_color_func__
       ({[ "hello"%string := 1%float ]} : gmap string float)
       [0.5%float; 1%float] ["blue"; "red"]%string "hello"
     <> Raise InvalidScore.
Proof.
  split; [reflexivity |]. split; [reflexivity |]. split; [reflexivity |].
  refine (proj2 (proj2 (invalid_score_unreachable
           ({[ "hello"%string := 1%float ]} : gmap string float)
           [0.5%float; 1%float] ["blue"; "red"]%string "hello" 1%float
           _ _ _)));
    reflexivity.
Defined.

(** * Further properties *)

(** ** The shape of a normalized text *)

Section NormalizedShape.

Import Text Pattern.

Lemma normal_char_char_lower (c : ascii) :
  is_word_or_quote c = true -> normal_char (char_lower c) = true.
Proof. destruct c as [[] [] [] [] [] [] [] []]; (reflexivity || discriminate). Qed.

Lemma all_chars_normal_lower (w : string) :
  all_chars is_word_or_quote w = true -> all_chars normal_char (lower w) = true.
Proof.
  induction w as [|c w IH]; simpl; [reflexivity |]. intros Hall.
  apply andb_true_iff in Hall as [Hc Hw].
  now rewrite (normal_char_char_lower _ Hc), (IH Hw).
Qed.

Lemma all_chars_join_space (p : ascii -> bool) (words : list string) :
  p " "%char = true ->
  Forall (fun w => all_chars p w = true) words ->
  all_chars p (join_space words) = true.
Proof.
  intros Hsp Hall. induction Hall as [|x words Hx Hwords IH]; [reflexivity |].
  destruct words as [|y words]; [exact Hx |].
  rewrite join_space_cons, !all_chars_append, Hx, IH. simpl. now rewrite Hsp.
Qed.

Lemma join_space_empty (words : list string) :
  Forall (fun w => w <> ""%string) words ->
  join_space words = ""%string -> words = [].
Proof.
  intros Hall Hjoin. destruct Hall as [|x words Hx Hwords]; [reflexivity |].
  exfalso. destruct x as [|c x]; [congruence |].
  destruct words as [|y words]; [discriminate Hjoin |].
  rewrite join_space_cons in Hjoin. discriminate Hjoin.
Qed.

Lemma filter_nil_iff {A : Type} (p : A -> bool) (l : list A) :
  List.filter p l = [] <-> Forall (fun x => p x = false) l.
Proof.
  induction l as [|x l IH]; simpl.
  - split; [constructor | reflexivity].
  - destruct (p x) eqn:Hp.
    + split; [discriminate | intros Hall; inversion Hall; congruence].
    + rewrite IH. split; [now constructor | intros Hall; now inversion Hall].
Qed.

Lemma preprocess_text_empty_iff_no_words (text : string) :
  preprocess_text text = ""%string <-> normal_words text = [].
Proof.
  rewrite preprocess_text_normal_words. split.
  - intros Hjoin. apply join_space_empty in Hjoin.
    + destruct (normal_words text); [reflexivity | discriminate].
    + apply List.Forall_forall. intros w Hin Hw. subst w.
      apply lower_normal_words in Hin as (_ & _ & Hwl). discriminate.
  - now intros ->.
Qed.

Lemma preprocess_text_normal_chars (text : string) :
  all_chars normal_char (preprocess_text text) = true.
Proof.
  rewrite preprocess_text_normal_words.
  apply all_chars_join_space; [reflexivity |].
  apply List.Forall_forall. intros w Hin.
  apply in_map_iff in Hin as (w0 & <- & Hin0).
  apply all_chars_normal_lower, wordlike_all_chars.
  pose proof (normal_words_wordlike text) as Hall.
  rewrite List.Forall_forall in Hall. now apply Hall.
Qed.

Lemma normal_char_not_upper (c : ascii) :
  normal_char c
  = (is_word_or_quote c || is_code 32 c) && negb (Checkpoint.char_isupper c).
Proof. destruct c as [[] [] [] [] [] [] [] []]; reflexivity. Qed.

Lemma all_chars_ext (p q : ascii -> bool) (s : string) :
  (forall c, p c = q c) -> all_chars p s = all_chars q s.
Proof. intros Hpq. induction s as [|c s IH]; simpl; [reflexivity |]. now rewrite Hpq, IH. Qed.

Lemma char_lower_fixed_not_upper (c : ascii) :
  char_lower c = c -> Checkpoint.char_isupper c = false.
Proof. destruct c as [[] [] [] [] [] [] [] []]; intros Hc; (reflexivity || discriminate Hc). Qed.

Lemma lower_fixed_not_upper (w : string) :
  lower w = w -> all_chars (fun c => negb (Checkpoint.char_isupper c)) w = true.
Proof.
  induction w as [|c w IH]; simpl; [reflexivity |].
  intros Hw. injection Hw as Hc Hw.
  now rewrite (char_lower_fixed_not_upper _ Hc), (IH Hw).
Qed.

(** X1: on texts over the code points 0..255, every character of a
    normalized text is a word character, an apostrophe or a space and is
    not an upper-case letter ([str.isupper] is false of it), and the words
    that the scorer gets from it by [split(' ')] are either the single
    empty word (when no token is left) or tokens of the pattern that have
    no upper-case letter and are not all digits. *)
Theorem preprocess_text_shape (text : string) :
  all_chars (fun c => (is_word_or_quote c || is_code 32 c)
                      && negb (Checkpoint.char_isupper c))
            (preprocess_text text) = true
  /\ ((preprocess_text text = ""%string /\ group_words text = [""%string])
      \/ (preprocess_text text <> ""%string
          /\ Forall (fun w => wordlike w = true /\ isdigit w = false
                              /\ all_chars (fun c => negb (Checkpoint.char_isupper c)) w
                                 = true)
                    (group_words text))).
Proof.
  split.
  - rewrite <- (all_chars_ext normal_char) by apply normal_char_not_upper.
    apply preprocess_text_normal_chars.
  - unfold group_words. rewrite split_space_preprocess_text.
    destruct (normal_words text) as [|w ws] eqn:Hnw.
    + left. split; [|reflexivity]. now apply preprocess_text_empty_iff_no_words.
    + right. split.
      * rewrite preprocess_text_empty_iff_no_words, Hnw. discriminate.
      * rewrite <- Hnw. apply List.Forall_forall. intros w' Hin.
        destruct (lower_normal_words text w' Hin) as (Hl & Hd & Hw).
        auto using lower_fixed_not_upper.
Qed.

(** X2: the normalized text is empty exactly when every token of the
    pattern is all digits once its possessive is stripped; so it is for the
    empty text and for a text without word characters. *)
Theorem preprocess_text_empty_iff (text : string) :
  preprocess_text text = ""%string
  <-> Forall (fun token => isdigit (strip_possessive token) = true) (findall text).
Proof.
  rewrite preprocess_text_empty_iff_no_words. unfold normal_words.
  rewrite filter_nil_iff, Forall_map.
  split; intros Hall; eapply Forall_impl; try exact Hall; simpl; intros w Hw.
  - now apply negb_false_iff in Hw.
  - now apply negb_false_iff.
Qed.

(** *** The case of the letters of the text does not matter *)

Lemma star_lower (s : string) :
  star_word_or_quote (lower s) = lower (star_word_or_quote s).
Proof.
  induction s as [|c s IH]; simpl; [reflexivity |].
  rewrite is_word_or_quote_char_lower.
  destruct (is_word_or_quote c); simpl; [now rewrite IH | reflexivity].
Qed.

Lemma findall_from_lower (s : string) :
  forall skip, findall_from skip (lower s) = map lower (findall_from skip s).
Proof.
  induction s as [|c s IH]; intros [|k]; simpl; try reflexivity.
  - rewrite is_word_char_lower. destruct (is_word c); simpl.
    + rewrite star_lower, !length_lower, IH. reflexivity.
    + apply IH.
  - apply IH.
Qed.

Lemma drop_last2_lower (word : string) :
  drop_last2 (lower word) = lower (drop_last2 word).
Proof.
  unfold drop_last2. rewrite length_lower.
  generalize (String.length word - 2)%nat. generalize 0%nat.
  induction word as [|c w IH]; intros n m; simpl.
  - destruct n, m; reflexivity.
  - destruct n as [|n]; [destruct m as [|m]; simpl; [reflexivity | now rewrite IH] |].
    apply IH.
Qed.

Lemma strip_possessive_lower (word : string) :
  strip_possessive (lower word) = lower (strip_possessive word).
Proof.
  unfold strip_possessive. rewrite lower_idempotent.
  destruct (endswith (lower word) "'s"); [apply drop_last2_lower | reflexivity].
Qed.

Lemma filter_map_commute {A : Type} (p : A -> bool) (f : A -> A) (l : list A) :
  (forall x, p (f x) = p x) ->
  List.filter p (map f l) = map f (List.filter p l).
Proof.
  intros Hp. induction l as [|x l IH]; simpl; [reflexivity |].
  rewrite Hp. destruct (p x); simpl; now rewrite IH.
Qed.

Lemma normal_words_lower (text : string) :
  normal_words (lower text) = map lower (normal_words text).
Proof.
  unfold normal_words, findall. rewrite findall_from_lower.
  rewrite map_map.
  rewrite (map_ext (fun w => strip_possessive (lower w))
                   (fun w => lower (strip_possessive w)))
    by (intros; apply strip_possessive_lower).
  rewrite <- (map_map strip_possessive lower).
  apply filter_map_commute. intros w. now rewrite isdigit_lower.
Qed.

(** X3: the text and its lower-case form have the same normalized text. *)
Theorem preprocess_text_lower (text : string) :
  preprocess_text (lower text) = preprocess_text text.
Proof.
  rewrite !preprocess_text_normal_words, normal_words_lower, map_map.
  f_equal. apply map_ext. intros w. apply lower_idempotent.
Qed.

End NormalizedShape.

(** ** Texts joined by a space *)

Section JoinedTexts.

Import Text Pattern.
Local Open Scope list_scope.







(** X5: on texts over the code points 0..255, the pattern finds in a
    normalized text the words that [split(' ')] gives, except that the
    empty text has the one empty word for [split(' ')] and no token for the
    pattern. *)
Theorem split_agrees_with_pattern (text : string) :
  (preprocess_text text <> ""%string ->
   findall (preprocess_text text) = group_words text)
  /\ (preprocess_text text = ""%string ->
      findall (preprocess_text text) = [] /\ group_words text = [""%string]).
Proof.
  assert (Hfind : findall (preprocess_text text) = map lower (normal_words text)).
  { rewrite preprocess_text_normal_words. apply findall_join_space.
    apply List.Forall_forall. intros w Hin.
    now apply lower_normal_words in Hin as (_ & _ & Hw). }
  unfold group_words. rewrite split_space_preprocess_text, Hfind.
  rewrite preprocess_text_empty_iff_no_words.
  destruct (normal_words text); split; intros Hnw; try congruence; auto.
Qed.

End JoinedTexts.

(** ** What the scoring can do, for any arithmetic *)

Section ScoringOutcome.

Context {R : Type} `{Num R}.
Local Open Scope list_scope.

(** The denominator that the loop computes for a word. *)
Local Abbreviation denominator ws1 ws2 word :=
  (num_add (frequency_read ws1 word) (frequency_read ws2 word)).

Lemma compute_word_scores_cases (group_1_words group_2_words : list string) :
  (exists word_scores,
     compute_word_scores group_1_words group_2_words = Return word_scores
     /\ (forall word, word ∈ group_1_words \/ word ∈ group_2_words ->
           num_eqb (denominator group_1_words group_2_words word) num_zero = false)
     /\ forall word,
          word_scores !! word
          = if decide (word ∈ group_1_words \/ word ∈ group_2_words)
            then Some (num_div (frequency_read group_1_words word)
                               (denominator group_1_words group_2_words word))
            else None)
  \/ (compute_word_scores group_1_words group_2_words = Raise ZeroDivisionError
      /\ exists word, (word ∈ group_1_words \/ word ∈ group_2_words)
           /\ num_eqb (denominator group_1_words group_2_words word) num_zero = true).
Proof.
  destruct (compute_word_scores_spec group_1_words group_2_words) as [Hok Hzero].
  destruct (existsb
              (fun word =>
                 num_eqb (denominator group_1_words group_2_words word) num_zero)
              (group_1_words ++ group_2_words)) eqn:Hex.
  - right. apply existsb_exists in Hex as (word & Hin & Hz).
    assert (Hword : word ∈ group_1_words \/ word ∈ group_2_words).
    { apply in_app_or in Hin as [Hin | Hin]; [left | right];
        now apply list_elem_of_In. }
    split; [apply Hzero |]; eauto.
  - left.
    assert (Hnz : forall word, word ∈ group_1_words \/ word ∈ group_2_words ->
              num_eqb (denominator group_1_words group_2_words word) num_zero = false).
    { intros word Hword.
      destruct (num_eqb (denominator group_1_words group_2_words word) num_zero)
        eqn:Hd; [|reflexivity].
      assert (Hyes : existsb
                (fun word =>
                   num_eqb (denominator group_1_words group_2_words word) num_zero)
                (group_1_words ++ group_2_words) = true); [|congruence].
      apply existsb_exists. exists word. split; [|exact Hd].
      apply in_or_app. destruct Hword as [Hin | Hin]; [left | right];
        now apply list_elem_of_In. }
    destruct (Hok Hnz) as (ws & Hws & Hlookup). exists ws. auto.
Qed.

(** X6: the scoring of two lists of words has two outcomes only.  Either it
    returns a dictionary whose keys are exactly the words of the two lists,
    each with its quotient [f1 / (f1 + f2)], or some word has a
    denominator equal to zero and it raises [ZeroDivisionError]. *)
Theorem compute_word_scores_outcome (group_1_words group_2_words : list string) :
  (exists word_scores,
     compute_word_scores group_1_words group_2_words = Return word_scores
     /\ (forall word,
           is_Some (word_scores !! word)
           <-> word ∈ group_1_words \/ word ∈ group_2_words)
     /\ (forall word score,
           word_scores !! word = Some score ->
           num_eqb (denominator group_1_words group_2_words word) num_zero = false
           /\ score = num_div (frequency_read group_1_words word)
                              (denominator group_1_words group_2_words word)))
  \/ (compute_word_scores group_1_words group_2_words = Raise ZeroDivisionError
      /\ exists word, (word ∈ group_1_words \/ word ∈ group_2_words)
           /\ num_eqb (denominator group_1_words group_2_words word) num_zero = true).
Proof.
  destruct (compute_word_scores_cases group_1_words group_2_words)
    as [(ws & Hws & Hnz & Hlookup) | Hraise]; [left | right; exact Hraise].
  exists ws. split; [exact Hws |]. split.
  - intros word. rewrite Hlookup.
    destruct (decide _) as [Hin | Hout]; split; intros Hx; eauto.
    + destruct Hx as [? Hx]. discriminate.
    + contradiction.
  - intros word score. rewrite Hlookup.
    destruct (decide _) as [Hin | Hout]; [|discriminate].
    intros [= <-]. split; [now apply Hnz | reflexivity].
Qed.

Lemma Counter_permutation (words words' : list string) :
  words ≡ₚ words' -> Counter words = Counter words'.
Proof.
  intros Hperm. apply map_eq. intros word. rewrite !Counter_lookup.
  unfold occurrences.
  now rewrite (proj1 (Permutation_count_occ string_dec words words') Hperm word).
Qed.

(** X7: the scores depend on the words of each group and not on their
    order: two lists with the same words the same number of times can
    replace each other. *)
Theorem compute_word_scores_permutation
    (group_1_words group_1_words' group_2_words group_2_words' : list string) :
  group_1_words ≡ₚ group_1_words' ->
  group_2_words ≡ₚ group_2_words' ->
  compute_word_scores group_1_words group_2_words
  = compute_word_scores group_1_words' group_2_words'.
Proof.
  intros H1 H2. unfold compute_word_scores.
  rewrite (Counter_permutation _ _ H1), (Counter_permutation _ _ H2).
  rewrite (Permutation_length H1), (Permutation_length H2).
  rewrite (list_to_set_perm_L (C := gset string) _ _ H1).
  rewrite (list_to_set_perm_L (C := gset string) _ _ H2).
  reflexivity.
Qed.

End ScoringOutcome.

Lemma compute_word_scores_permutation_witness :
  ["cat"; "dog"; "cat"]%string ≡ₚ ["cat"; "cat"; "dog"]%string
  /\ ["dog"]%string ≡ₚ ["dog"]%string
  /\ compute_word_scores (R := float) ["cat"; "dog"; "cat"]%string ["dog"]%string
     = compute_word_scores (R := float) ["cat"; "cat"; "dog"]%string ["dog"]%string.
Proof.
  assert (H1 : ["cat"; "dog"; "cat"]%string ≡ₚ ["cat"; "cat"; "dog"]%string)
    by (apply perm_skip, perm_swap).
  assert (H2 : ["dog"]%string ≡ₚ ["dog"]%string) by reflexivity.
  split; [exact H1 |]. split; [exact H2 |].
  exact (compute_word_scores_permutation _ _ _ _ H1 H2).
Defined.

(** ** The counters *)

Section Counters.

Local Open Scope list_scope.

Lemma counter_total_insert_fresh (counter : gmap string nat) (word : string) (n : nat) :
  counter !! word = None ->
  counter_total (<[word := n]> counter) = (n + counter_total counter)%nat.
Proof.
  intros Hnone. unfold counter_total.
  apply (map_fold_insert_L (fun _ count acc => (count + acc)%nat)); [|exact Hnone].
  intros. lia.
Qed.

Lemma counter_total_increment (counter : gmap string nat) (word : string) :
  counter_total (<[word := S (default 0%nat (counter !! word))]> counter)
  = S (counter_total counter).
Proof.
  destruct (counter !! word) as [n|] eqn:Hlookup; simpl.
  - rewrite <- insert_delete_eq.
    rewrite counter_total_insert_fresh by apply lookup_delete_eq.
    unfold counter_total at 2.
    rewrite (map_fold_delete_L (fun _ count acc => (count + acc)%nat) 0%nat word n)
      by (intros; lia || exact Hlookup).
    fold (counter_total (delete word counter)). lia.
  - now rewrite counter_total_insert_fresh.
Qed.

Lemma counter_total_foldl (words : list string) :
  forall counter : gmap string nat,
    counter_total
      (foldl (fun counter word => <[word := S (default 0%nat (counter !! word))]> counter)
             counter words)
    = (counter_total counter + length words)%nat.
Proof.
  induction words as [|w words IH]; intros counter; simpl; [lia |].
  rewrite IH, counter_total_increment. lia.
Qed.

(** X8: [Counter(words)] has an entry exactly for the words of the list,
    the entry of a word is the number of its occurrences, and the counts
    add up to the length of the list. *)
Theorem Counter_counts (words : list string) :
  (forall word, is_Some (Counter words !! word) <-> word ∈ words)
  /\ (forall word count,
        Counter words !! word = Some count ->
        count = occurrences word words /\ (0 < count)%nat)
  /\ counter_total (Counter words) = length words.
Proof.
  split; [|split].
  - intros word. rewrite Counter_lookup, occurrences_pos.
    destruct (occurrences word words); split; intros Hx;
      try lia; eauto; destruct Hx; discriminate.
  - intros word count. rewrite Counter_lookup.
    destruct (occurrences word words); [discriminate |].
    intros [= <-]. split; [reflexivity | lia].
  - unfold Counter. rewrite counter_total_foldl. reflexivity.
Qed.

End Counters.

(** ** The colour closure without validation *)

Section ClosureOutcome.

Context {R : Type} `{Num R}.
Local Open Scope list_scope.

Lemma first_color_Raise (score : R) :
  forall (thresholds : list R) (colors : list string) (e : exn),
    first_color score (zip thresholds colors) = Raise e ->
    e = InvalidScore
    /\ forall i t, thresholds !! i = Some t -> (i < length colors)%nat ->
         num_leb score t = false.
Proof.
  induction thresholds as [|t0 ths IH]; intros [|c0 cols] e He; simpl in *.
  - injection He as <-. split; [reflexivity |]. intros i t Hl. discriminate.
  - injection He as <-. split; [reflexivity |]. intros i t Hl. discriminate.
  - injection He as <-. split; [reflexivity |]. intros i t _ Hi. lia.
  - destruct (num_leb score t0) eqn:Hle; [discriminate |].
    destruct (IH cols e He) as [-> Hall]. split; [reflexivity |].
    intros [|i] t Hl Hi; simpl in Hl.
    + congruence.
    + apply (Hall i t Hl). lia.
Qed.

(** X13: whatever the two lists are, the colour closure has three outcomes.
    A word without a score raises the lookup exception.  A word with a
    score gets the colour at the first position, among the positions that
    have both a threshold and a colour, whose threshold is greater than or
    equal to the score; the colour is one of [colors].  When no such
    position exists the closure raises the exception behind the loop. *)
Theorem choose_color_outcome
    (word_scores : gmap string R) (thresholds : list R) (colors : list string)
    (word : string) :
  match word_scores !! word with
  | None =>
      __create_choose_color_func__ word_scores thresholds colors word
      = Raise (NoScoreCreated word)
  | Some score =>
      (exists i t c,
         thresholds !! i = Some t /\ colors !! i = Some c /\ c ∈ colors
         /\ num_leb score t = true
         /\ (forall j t', (j < i)%nat -> thresholds !! j = Some t' ->
               num_leb score t' = false)
         /\ __create_choose_color_func__ word_scores thresholds colors word = Return c)
      \/ ((forall i t, thresholds !! i = Some t -> (i < length colors)%nat ->
             num_leb score t = false)
          /\ __create_choose_color_func__ word_scores thresholds colors word
             = Raise InvalidScore)
  end.
Proof.
  unfold __create_choose_color_func__, __choose_color__.
  destruct (word_scores !! word) as [score|]; [|reflexivity].
  destruct (first_color score (zip thresholds colors)) as [c|e] eqn:Hfc.
  - left. apply first_color_Return in Hfc as (i & t & Ht & Hc & Hle & Hfirst).
    exists i, t, c. repeat split; auto. eapply list_elem_of_lookup_2; eauto.
  - right. apply first_color_Raise in Hfc as [-> Hall]. auto.
Qed.

End ClosureOutcome.

(** ** The order of the colours, in binary64 *)

Section ColourOrder.

Local Open Scope list_scope.

Lemma SFleb_finite_neg (m1 m2 : positive) (e1 e2 : Z) :
  SFleb (S754_finite true m1 e1) (S754_finite true m2 e2) = true
  <-> (e2 < e1 \/ (e1 = e2 /\ Zpos m2 <= Zpos m1))%Z.
Proof.
  unfold SFleb, SFcompare.
  destruct (Z.compare_spec e1 e2) as [He | He | He].
  - change (Pos.compare_cont Eq m1 m2) with (Pos.compare m1 m2).
    destruct (Pos.compare_spec m1 m2) as [Hm | Hm | Hm]; simpl; split; intros Hx;
      try reflexivity; try discriminate; try lia.
  - split; [discriminate | lia].
  - split; [intros _; lia | reflexivity].
Qed.

(** [<=] on binary64 numbers is transitive (a NaN is below nothing and
    above nothing). *)
Lemma SFleb_trans (a b c : spec_float) :
  SFleb a b = true -> SFleb b c = true -> SFleb a c = true.
Proof.
  destruct a as [sa | sa | | sa ma ea], b as [sb | sb | | sb mb eb],
           c as [sc | sc | | sc mc ec];
    try destruct sa; try destruct sb; try destruct sc;
    try (intros _ _; reflexivity);
    try (intros Hab; discriminate Hab);
    try (intros _ Hbc; discriminate Hbc).
  - rewrite !SFleb_finite_neg. lia.
  - rewrite !SFleb_finite_pos. lia.
Qed.

Lemma leb_trans (x y z : float) :
  PrimFloat.leb x y = true -> PrimFloat.leb y z = true -> PrimFloat.leb x z = true.
Proof. rewrite !FloatAxioms.leb_spec. apply SFleb_trans. Qed.

(** X14: in binary64, of two words that both get a colour, the one with the
    smaller score gets its colour from the same or an earlier position of
    [colors]: the position where the loop stops for a score is the first
    one whose threshold is greater than or equal to the score, and the
    position for the smaller score is at or before the position for the
    larger one. *)
Theorem color_position_monotone
    (word_scores : gmap string float) (thresholds : list float) (colors : list string)
    (word1 word2 : string) (score1 score2 : float) (c1 c2 : string) :
  word_scores !! word1 = Some score1 ->
  word_scores !! word2 = Some score2 ->
  PrimFloat.leb score1 score2 = true ->
  __create_choose_color_func__ word_scores thresholds colors word1 = Return c1 ->
  __create_choose_color_func__ word_scores thresholds colors word2 = Return c2 ->
  exists i1 i2 t1 t2,
    (i1 <= i2)%nat
    /\ thresholds !! i1 = Some t1 /\ colors !! i1 = Some c1
    /\ PrimFloat.leb score1 t1 = true
    /\ (forall j t, (j < i1)%nat -> thresholds !! j = Some t ->
          PrimFloat.leb score1 t = false)
    /\ thresholds !! i2 = Some t2 /\ colors !! i2 = Some c2
    /\ PrimFloat.leb score2 t2 = true
    /\ (forall j t, (j < i2)%nat -> thresholds !! j = Some t ->
          PrimFloat.leb score2 t = false).
Proof.
  intros Hs1 Hs2 Hle H1 H2.
  unfold __create_choose_color_func__, __choose_color__ in H1, H2.
  rewrite Hs1 in H1. rewrite Hs2 in H2.
  apply first_color_Return in H1 as (i1 & t1 & Ht1 & Hc1 & Hle1 & Hfirst1).
  apply first_color_Return in H2 as (i2 & t2 & Ht2 & Hc2 & Hle2 & Hfirst2).
  exists i1, i2, t1, t2. repeat split; auto.
  destruct (le_lt_dec i1 i2) as [Hi | Hi]; [exact Hi | exfalso].
  specialize (Hfirst1 i2 t2 Hi Ht2). simpl in *.
  rewrite (leb_trans _ _ _ Hle Hle2) in Hfirst1. discriminate.
Qed.

End ColourOrder.

Lemma color_position_monotone_witness :
  exists i1 i2 t1 t2,
    (i1 <= i2)%nat
    /\ [0.5%float; 1%float] !! i1 = Some t1
    /\ ["blue"; "red"]%string !! i1 = Some "blue"%string
    /\ PrimFloat.leb 0 t1 = true
    /\ (forall j t, (j < i1)%nat -> [0.5%float; 1%float] !! j = Some t ->
          PrimFloat.leb 0 t = false)
    /\ [0.5%float; 1%float] !! i2 = Some t2
    /\ ["blue"; "red"]%string !! i2 = Some "red"%string
    /\ PrimFloat.leb 1 t2 = true
    /\ (forall j t, (j < i2)%nat -> [0.5%float; 1%float] !! j = Some t ->
          PrimFloat.leb 1 t = false).
Proof.
  apply (color_position_monotone
           ({[ "world"%string := 0%float; "hello"%string := 1%float ]}
              : gmap string float)
           [0.5%float; 1%float] ["blue"; "red"]%string
           "world" "hello" 0%float 1%float "blue" "red");
    reflexivity.
Defined.

(** ** The earlier version and the normalizer *)

Section EarlierVersion.

Import Text Pattern.
Local Open Scope list_scope.

Lemma contains_char_all_chars (q : ascii -> bool) (p : ascii) (s : string) :
  Checkpoint.contains_char p s = true -> all_chars q s = true -> q p = true.
Proof.
  induction s as [|c s IH]; simpl; [discriminate |].
  intros Hin Hall. apply andb_true_iff in Hall as [Hc Hs].
  apply orb_true_iff in Hin as [Heq | Hin]; [|now apply IH].
  apply Ascii.eqb_eq in Heq. now subst.
Qed.

Lemma normalized_has_no_punctuation (text : string) (p : ascii) :
  In p (list_ascii_of_string Checkpoint.PUNCTUATION) ->
  Checkpoint.contains_char p (preprocess_text text) = false.
Proof.
  intros Hp.
  destruct (Checkpoint.contains_char p (preprocess_text text)) eqn:Hin;
    [|reflexivity].
  pose proof (contains_char_all_chars normal_char p _ Hin
                (preprocess_text_normal_chars text)) as Hnormal.
  simpl in Hp. destruct Hp as [<- | [<- | [<- | [<- | []]]]]; discriminate Hnormal.
Qed.

(** X18: the current version is the earlier version run on the normalized
    texts: same result, same exception; and on normalized texts the earlier
    version never prints its warning about punctuation. *)
Theorem earlier_version_on_normalized_texts {R : Type} `{Num R}
    (group_1_text group_2_text : string) (thresholds : list R) (colors : list string) :
  snd (Checkpoint.generateTwoGroupWordCloud
         (preprocess_text group_1_text) (preprocess_text group_2_text)
         thresholds colors)
  = generateTwoGroupWordCloud group_1_text group_2_text thresholds colors
  /\ Checkpoint.WARNING_PUNCTUATION
     ∉ fst (Checkpoint.generateTwoGroupWordCloud
              (preprocess_text group_1_text) (preprocess_text group_2_text)
              thresholds colors).
Proof.
  unfold Checkpoint.generateTwoGroupWordCloud, generateTwoGroupWordCloud.
  destruct (validate thresholds colors) as [[]|e]; simpl.
  - split; [reflexivity |].
    assert (Hnone : Checkpoint.has_punctuation (preprocess_text group_1_text)
                      (preprocess_text group_2_text) = false).
    { unfold Checkpoint.has_punctuation.
      destruct (existsb _ _) eqn:Hex; [|reflexivity].
      apply existsb_exists in Hex as (group & Hgroup & Hex).
      apply existsb_exists in Hex as (p & Hp & Hin).
      destruct Hgroup as [<- | [<- | []]];
        now rewrite normalized_has_no_punctuation in Hin. }
    rewrite Hnone. simpl.
    destruct (negb _ && _); [|apply not_elem_of_nil].
    intros Hin. apply list_elem_of_singleton in Hin. discriminate Hin.
  - split; [reflexivity | apply not_elem_of_nil].
Qed.

(** X19: the earlier version does not print its warning about lower case
    when the text of group 2 has an upper-case letter, whatever the text of
    group 1 is. *)
Theorem lowercase_warning_misses_group_2 {R : Type} `{Num R}
    (group_1_text group_2_text : string) (thresholds : list R) (colors : list string)
    (c : ascii) :
  Checkpoint.contains_char c group_2_text = true ->
  Checkpoint.char_isupper c = true ->
  Checkpoint.WARNING_LOWERCASE
  ∉ fst (Checkpoint.generateTwoGroupWordCloud
           group_1_text group_2_text thresholds colors).
Proof.
  intros Hin Hupper. unfold Checkpoint.generateTwoGroupWordCloud.
  destruct (validate thresholds colors) as [[]|e]; simpl; [|apply not_elem_of_nil].
  assert (Hlow : Checkpoint.islower group_2_text = false).
  { unfold Checkpoint.islower.
    destruct (all_chars (fun c => negb (Checkpoint.char_isupper c)) group_2_text)
      eqn:Hall; [|reflexivity].
    pose proof (contains_char_all_chars _ c _ Hin Hall) as Hc. simpl in Hc.
    rewrite Hupper in Hc. discriminate. }
  rewrite Hlow, andb_false_r, app_nil_r.
  destruct (Checkpoint.has_punctuation _ _); [|apply not_elem_of_nil].
  intros Hx. apply list_elem_of_singleton in Hx. discriminate Hx.
Qed.

Lemma lowercase_warning_misses_group_2_witness :
  Checkpoint.contains_char "W" "World" = true
  /\ Checkpoint.char_isupper "W" = true
  /\ Checkpoint.WARNING_LOWERCASE
     ∉ fst (Checkpoint.generateTwoGroupWordCloud (R := float)
              "HELLO" "World" [0.5%float; 1%float] ["blue"; "red"]%string).
Proof.
  split; [reflexivity |]. split; [reflexivity |].
  apply (lowercase_warning_misses_group_2 (R := float)
           "HELLO" "World" [0.5%float; 1%float] ["blue"; "red"]%string "W");
    reflexivity.
Defined.

End EarlierVersion.

(** ** [split(' ')] and [' '.join] *)

Section SplitJoin.

Import Text Pattern.
Local Open Scope list_scope.

Lemma is_code_32_space (c : ascii) : is_code 32 c = true -> c = " "%char.
Proof. destruct c as [[] [] [] [] [] [] [] []]; (reflexivity || discriminate). Qed.

Lemma split_space_nonempty (s : string) : split_space s <> [].
Proof.
  destruct s as [|c s]; simpl; [discriminate |].
  destruct (is_code 32 c); [discriminate |].
  destruct (split_space s); discriminate.
Qed.

Lemma join_space_head (c : ascii) (t : string) (ts : list string) :
  join_space (String c t :: ts) = String c (join_space (t :: ts)).
Proof. destruct ts; reflexivity. Qed.

(** X20: joining with single spaces the pieces that [split(' ')] makes of a
    string gives the string back, and [split(' ')] is never empty; the
    other way round, splitting the join of a non-empty list of words
    without spaces gives the list back. *)
Theorem split_space_round_trip :
  (forall s, split_space s <> [] /\ join_space (split_space s) = s)
  /\ (forall words,
        words <> [] -> Forall (fun w => spaceless w = true) words ->
        split_space (join_space words) = words).
Proof.
  split; [|apply split_space_join_space].
  intros s. split; [apply split_space_nonempty |].
  induction s as [|c s IH]; [reflexivity |]. simpl.
  destruct (is_code 32 c) eqn:Hc.
  - apply is_code_32_space in Hc. subst c.
    destruct (split_space s) as [|t ts] eqn:Hs;
      [now apply split_space_nonempty in Hs |].
    rewrite join_space_cons, IH. reflexivity.
  - destruct (split_space s) as [|t ts] eqn:Hs;
      [now apply split_space_nonempty in Hs |].
    rewrite join_space_head, IH. reflexivity.
Qed.

End SplitJoin.

(** ** The words the closure knows *)

(** X21: with a valid table, in binary64 and with fewer than [2^53] words
    in each group, the colour closure built for the renderer returns a
    colour exactly for the words of the two groups, and raises the lookup
    exception exactly for every other word. *)
Theorem color_func_knows_group_words
    (group_1_text group_2_text : string) (thresholds : list float) (colors : list string) :
  (Z.of_nat (length (group_words group_1_text)) < 2 ^ 53)%Z ->
  (Z.of_nat (length (group_words group_2_text)) < 2 ^ 53)%Z ->
  valid_table thresholds colors ->
  exists wc,
    generateTwoGroupWordCloud group_1_text group_2_text thresholds colors = Return wc
    /\ forall word,
         ((exists c, color_func wc word = Return c)
          <-> word ∈ group_words group_1_text \/ word ∈ group_words group_2_text)
         /\ (color_func wc word = Raise (NoScoreCreated word)
             <-> ~ (word ∈ group_words group_1_text \/ word ∈ group_words group_2_text)).
Proof.
  intros H1 H2 Hvalid. apply validate_Return in Hvalid.
  rewrite (generateTwoGroupWordCloud_valid _ _ _ _ Hvalid). unfold scores_of_texts.
  destruct (compute_word_scores_binary64 _ _ H1 H2) as (ws & -> & Hlookup).
  eexists. split; [reflexivity |]. intros word.
  unfold color_func. simpl.
  destruct (decide (word ∈ group_words group_1_text \/ word ∈ group_words group_2_text))
    as [Hword | Hword].
  - assert (Hscore : ws !! word
              = Some (frequency_read (R := float) (group_words group_1_text) word
                      / (frequency_read (R := float) (group_words group_1_text) word
                         + frequency_read (R := float) (group_words group_2_text) word))%float).
    { rewrite Hlookup. destruct (decide _); [reflexivity | contradiction]. }
    destruct (score_binary64 _ _ word H1 H2 Hword)
      as (_ & _ & _ & _ & _ & Hle & _).
    destruct (choose_color_bounded ws thresholds colors word _ Hvalid Hscore Hle)
      as [_ [c Hc]].
    split; split; intros Hx; eauto.
    + rewrite Hc in Hx. discriminate.
    + contradiction.
  - assert (Hraise : __create_choose_color_func__ ws thresholds colors word
                     = Raise (NoScoreCreated word)).
    { unfold __create_choose_color_func__, __choose_color__.
      rewrite Hlookup. destruct (decide _); [contradiction | reflexivity]. }
    split; split; intros Hx; auto; try contradiction.
    destruct Hx as [c Hc]. rewrite Hraise in Hc. discriminate.
Qed.

Lemma color_func_knows_group_words_witness :
  (Z.of_nat (length (group_words "hello")) < 2 ^ 53)%Z
  /\ (Z.of_nat (length (group_words "world")) < 2 ^ 53)%Z
  /\ valid_table [0.5%float; 1%float] ["blue"; "red"]%string
  /\ exists wc,
       generateTwoGroupWordCloud "hello" "world" [0.5%float; 1%float]
         ["blue"; "red"]%string = Return wc
       /\ color_func wc "other" = Raise (NoScoreCreated "other").
Proof.
  assert (Hvalid : valid_table [0.5%float; 1%float] ["blue"; "red"]%string)
    by (apply validate_Return; reflexivity).
  split; [reflexivity |]. split; [reflexivity |]. split; [exact Hvalid |].
  destruct (color_func_knows_group_words "hello" "world" _ _
              ltac:(reflexivity) ltac:(reflexivity) Hvalid)
    as (wc & Hwc & Hknown).
  exists wc. split; [exact Hwc |].
  apply (proj2 (Hknown "other"%string)).
  vm_compute. intros [Hin | Hin];
    apply list_elem_of_In in Hin; destruct Hin as [Heq | []]; discriminate Heq.
Defined.
